(** * bigfloat: hypercomplex algebras over a multi-precision scalar

    A shallow embedding of the Go package [bigfloat]
    (complex.go, perplex.go, infra.go, hamilton.go, cockle.go, supra.go)
    and the properties its specification states about it.

    Layout:
    - [BigFloat]: the scalar the package is built on;
    - [Complex], [Perplex], [Infra]: the two-component algebras;
    - [Hamilton], [Cockle], [Supra]: the four-component algebras, pairs of
      two-component values;
    - [FloatPtr], [ComplexPtr], [HamiltonPtr]: the same methods as the
      source writes them, on pointers into a store of scalar cells, where
      the receiver may alias an operand;
    - the theorems. *)

From Stdlib Require Import ZArith QArith Qcanon String List Lia Lqa Bool.
Import ListNotations.

Open Scope Qc_scope.

(** ** Outcomes of a call

    A Go method of the package either returns or panics with a message.
    The scalar quotient has, besides, no value at a zero divisor. *)

Inductive outcome (A : Type) : Type :=
| Ok (a : A)
| Panic (msg : string)
| NoQuotient.

Arguments Ok {A} a.
Arguments Panic {A} msg.
Arguments NoQuotient {A}.

Definition bind {A B : Type} (m : outcome A) (k : A -> outcome B) : outcome B :=
  match m with
  | Ok a => k a
  | Panic msg => Panic msg
  | NoQuotient => NoQuotient
  end.

Notation "x <- m ;; k" := (bind m (fun x => k))
  (at level 61, m at next level, right associativity).

(** The two kinds of domain failure the specification names.  The source
    raises them as panics; the kind of a panic is read off the guard that
    raised it: the [Equals(zero)] guards of complex.go and hamilton.go raise
    the first five messages, the [IsZeroDiv()] guards of the other four
    files raise the last four. *)

Inductive DomainError : Type := DivideByZero | ZeroDivisor.

Definition kind_of_panic (msg : string) : option DomainError :=
  if existsb (String.eqb msg)
       ["zero inverse"; "zero denominator"; "inverse of zero";
        "left denominator is zero"; "right denominator is zero"]%string
  then Some DivideByZero
  else if existsb (String.eqb msg)
       ["zero divisor inverse"; "zero divisor denominator";
        "inverse of zero divisor"; "denominator is zero divisor"]%string
  then Some ZeroDivisor
  else None.

Definition fails_with {A : Type} (o : outcome A) (k : DomainError) : Prop :=
  exists msg, o = Panic msg /\ kind_of_panic msg = Some k.

Definition returns {A : Type} (o : outcome A) : Prop :=
  exists a, o = Ok a.

(** ** The scalar *)

Module BigFloat.

(** Modelled from the spec: the scalar type [big.Float] of Go's [math/big]
    is not part of the package.  The specification's ScalarField contract
    is followed: an exact real number with exact add, sub, mul, neg,
    compare and sign, and a quotient defined for a nonzero divisor.
    Rounding to a precision, signed zeros and infinities are not
    modelled. *)
Definition t : Type := Qc.

(** [new(big.Float)]: the zero value. *)
Definition new : t := 0.

Definition Add (x y : t) : t := x + y.
Definition Sub (x y : t) : t := x - y.
Definition Mul (x y : t) : t := x * y.
Definition Neg (x : t) : t := - x.

Definition Quo (x y : t) : outcome t :=
  if Qc_eq_bool y 0 then NoQuotient else Ok (x / y).

(** [x.Cmp(y)]: -1, 0 or +1. *)
Definition Cmp (x y : t) : Z :=
  match Qccompare x y with
  | Lt => (-1)%Z
  | Eq => 0%Z
  | Gt => 1%Z
  end.

(** [x.Sign()]: -1, 0 or +1. *)
Definition Sign (x : t) : Z := Cmp x 0.

(** [big.NewFloat(1)] and [SetFloat64(0.5)], [SetFloat64(-0.5)]. *)
Definition one : t := Q2Qc 1.
Definition half : t := Q2Qc (1 # 2).
Definition minus_half : t := Q2Qc (-1 # 2).

(** An integer as a scalar. *)
Definition of_Z (n : Z) : t := Q2Qc (inject_Z n).

End BigFloat.

(** [x.Cmp(y) != 0] as a boolean. *)
Definition differ (x y : BigFloat.t) : bool :=
  negb (Z.eqb (BigFloat.Cmp x y) 0).

(** ** Complex: Mul(i, i) = -1 *)

Module Complex.

Record t : Type := mk { l : BigFloat.t; r : BigFloat.t }.

(** [new(Complex)]. *)
Definition new : t := mk BigFloat.new BigFloat.new.

Definition Equals (z y : t) : bool :=
  if differ (l z) (l y) || differ (r z) (r y) then false else true.

Definition Scal (y : t) (a : BigFloat.t) : t :=
  mk (BigFloat.Mul (l y) a) (BigFloat.Mul (r y) a).

Definition Neg (y : t) : t :=
  mk (BigFloat.Neg (l y)) (BigFloat.Neg (r y)).

Definition Conj (y : t) : t :=
  mk (l y) (BigFloat.Neg (r y)).

Definition Add (x y : t) : t :=
  mk (BigFloat.Add (l x) (l y)) (BigFloat.Add (r x) (r y)).

Definition Sub (x y : t) : t :=
  mk (BigFloat.Sub (l x) (l y)) (BigFloat.Sub (r x) (r y)).

Definition Mul (x y : t) : t :=
  let a := l x in
  let b := r x in
  let c := l y in
  let d := r y in
  mk (BigFloat.Sub (BigFloat.Mul a c) (BigFloat.Mul d b))
     (BigFloat.Add (BigFloat.Mul d a) (BigFloat.Mul b c)).

Definition Quad (z : t) : BigFloat.t :=
  BigFloat.Add (BigFloat.Mul (l z) (l z)) (BigFloat.Mul (r z) (r z)).

Definition Inv (y : t) : outcome t :=
  let zero := new in
  if Equals y zero then Panic "zero inverse" else
  let quad := Quad y in
  let z := Conj y in
  zl <- BigFloat.Quo (l z) quad ;;
  zr <- BigFloat.Quo (r z) quad ;;
  Ok (mk zl zr).

(** The value [Quo] leaves in a receiver that is not the operand [x]. *)
Definition Quo (x y : t) : outcome t :=
  let zero := new in
  if Equals y zero then Panic "zero denominator" else
  let quad := Quad y in
  let z := Conj y in
  let z := Mul x z in
  zl <- BigFloat.Quo (l z) quad ;;
  zr <- BigFloat.Quo (r z) quad ;;
  Ok (mk zl zr).

(** [NewComplex(a, b)]: the value a+bi. *)
Definition NewComplex (a b : BigFloat.t) : t := mk a b.

(** [Real] is the first Cartesian component. *)
Definition Real (z : t) : BigFloat.t := l z.

Definition Cartesian (z : t) : BigFloat.t * BigFloat.t := (l z, r z).

(** The value [CrossRatio] leaves in a receiver that is none of its
    operands: [Inv(w - x) * (v - x) * Inv(v - y) * (w - y)], computed from
    left to right. *)
Definition CrossRatio (v w x y : t) : outcome t :=
  let z := Sub w x in
  z <- Inv z ;;
  let temp := Sub v x in
  let z := Mul z temp in
  let temp := Sub v y in
  temp <- Inv temp ;;
  let z := Mul z temp in
  let temp := Sub w y in
  Ok (Mul z temp).

(** The value [Möbius] leaves in a receiver that is none of its operands:
    [(a*y + b) * Inv(c*y + d)]. *)
Definition Möbius (y a b c d : t) : outcome t :=
  let z := Mul a y in
  let z := Add z b in
  let temp := Mul c y in
  let temp := Add temp d in
  temp <- Inv temp ;;
  Ok (Mul z temp).

End Complex.

(** ** Perplex: Mul(s, s) = +1 *)

Module Perplex.

Record t : Type := mk { l : BigFloat.t; r : BigFloat.t }.

Definition new : t := mk BigFloat.new BigFloat.new.

Definition Equals (z y : t) : bool :=
  if differ (l z) (l y) || differ (r z) (r y) then false else true.

Definition Scal (y : t) (a : BigFloat.t) : t :=
  mk (BigFloat.Mul (l y) a) (BigFloat.Mul (r y) a).

Definition Neg (y : t) : t :=
  mk (BigFloat.Neg (l y)) (BigFloat.Neg (r y)).

Definition Conj (y : t) : t :=
  mk (l y) (BigFloat.Neg (r y)).

Definition Add (x y : t) : t :=
  mk (BigFloat.Add (l x) (l y)) (BigFloat.Add (r x) (r y)).

Definition Sub (x y : t) : t :=
  mk (BigFloat.Sub (l x) (l y)) (BigFloat.Sub (r x) (r y)).

Definition Mul (x y : t) : t :=
  let a := l x in
  let b := r x in
  let c := l y in
  let d := r y in
  mk (BigFloat.Add (BigFloat.Mul a c) (BigFloat.Mul d b))
     (BigFloat.Add (BigFloat.Mul d a) (BigFloat.Mul b c)).

Definition Quad (z : t) : BigFloat.t :=
  BigFloat.Sub (BigFloat.Mul (l z) (l z)) (BigFloat.Mul (r z) (r z)).

Definition IsZeroDiv (z : t) : bool :=
  if Z.eqb (BigFloat.Cmp (l z) (r z)) 0 then true
  else if Z.eqb (BigFloat.Cmp (l z) (BigFloat.Neg (r z))) 0 then true
  else false.

Definition Inv (y : t) : outcome t :=
  if IsZeroDiv y then Panic "zero divisor inverse" else
  let quad := Quad y in
  let z := Conj y in
  zl <- BigFloat.Quo (l z) quad ;;
  zr <- BigFloat.Quo (r z) quad ;;
  Ok (mk zl zr).

(** The value [Quo] leaves in a receiver that is not the operand [x]. *)
Definition Quo (x y : t) : outcome t :=
  if IsZeroDiv y then Panic "zero divisor denominator" else
  let quad := Quad y in
  let z := Conj y in
  let z := Mul x z in
  zl <- BigFloat.Quo (l z) quad ;;
  zr <- BigFloat.Quo (r z) quad ;;
  Ok (mk zl zr).

(** [sign] is a Go [int]. *)
Definition Idempotent (sign : Z) : t :=
  if (sign <? 0)%Z then mk BigFloat.half BigFloat.minus_half
  else mk BigFloat.half BigFloat.half.

(** [NewPerplex(a, b)]: the value a+bs. *)
Definition NewPerplex (a b : BigFloat.t) : t := mk a b.


Definition Cartesian (z : t) : BigFloat.t * BigFloat.t := (l z, r z).

(** The value [CrossRatio] leaves in a receiver that is none of its
    operands: [Inv(w - x) * (v - x) * Inv(v - y) * (w - y)], computed from
    left to right. *)
Definition CrossRatio (v w x y : t) : outcome t :=
  let z := Sub w x in
  z <- Inv z ;;
  let temp := Sub v x in
  let z := Mul z temp in
  let temp := Sub v y in
  temp <- Inv temp ;;
  let z := Mul z temp in
  let temp := Sub w y in
  Ok (Mul z temp).

(** The value [Möbius] leaves in a receiver that is none of its operands:
    [(a*y + b) * Inv(c*y + d)]. *)
Definition Möbius (y a b c d : t) : outcome t :=
  let z := Mul a y in
  let z := Add z b in
  let temp := Mul c y in
  let temp := Add temp d in
  temp <- Inv temp ;;
  Ok (Mul z temp).

End Perplex.

(** ** Infra: Mul(α, α) = 0 *)

Module Infra.

Record t : Type := mk { l : BigFloat.t; r : BigFloat.t }.

Definition new : t := mk BigFloat.new BigFloat.new.

Definition Equals (z y : t) : bool :=
  if differ (l z) (l y) || differ (r z) (r y) then false else true.

Definition Scal (y : t) (a : BigFloat.t) : t :=
  mk (BigFloat.Mul (l y) a) (BigFloat.Mul (r y) a).

Definition Neg (y : t) : t :=
  mk (BigFloat.Neg (l y)) (BigFloat.Neg (r y)).

Definition Conj (y : t) : t :=
  mk (l y) (BigFloat.Neg (r y)).

Definition Add (x y : t) : t :=
  mk (BigFloat.Add (l x) (l y)) (BigFloat.Add (r x) (r y)).

Definition Sub (x y : t) : t :=
  mk (BigFloat.Sub (l x) (l y)) (BigFloat.Sub (r x) (r y)).

Definition Mul (x y : t) : t :=
  let a := l x in
  let b := r x in
  let c := l y in
  let d := r y in
  mk (BigFloat.Mul a c)
     (BigFloat.Add (BigFloat.Mul d a) (BigFloat.Mul b c)).

Definition Quad (z : t) : BigFloat.t :=
  BigFloat.Mul (l z) (l z).

Definition IsZeroDiv (z : t) : bool :=
  let zero := BigFloat.new in
  Z.eqb (BigFloat.Cmp (l z) zero) 0.

Definition Inv (y : t) : outcome t :=
  if IsZeroDiv y then Panic "zero divisor inverse" else
  let quad := Quad y in
  let z := Conj y in
  zl <- BigFloat.Quo (l z) quad ;;
  zr <- BigFloat.Quo (r z) quad ;;
  Ok (mk zl zr).

(** The value [Quo] leaves in a receiver that is not the operand [x]. *)
Definition Quo (x y : t) : outcome t :=
  if IsZeroDiv y then Panic "zero divisor denominator" else
  let quad := Quad y in
  let z := Conj y in
  let z := Mul x z in
  zl <- BigFloat.Quo (l z) quad ;;
  zr <- BigFloat.Quo (r z) quad ;;
  Ok (mk zl zr).

(** [NewInfra(a, b)]: the value a+bα. *)
Definition NewInfra (a b : BigFloat.t) : t := mk a b.

(** [Real] is the first Cartesian component. *)
Definition Real (z : t) : BigFloat.t := l z.

Definition Cartesian (z : t) : BigFloat.t * BigFloat.t := (l z, r z).

(** The value [CrossRatio] leaves in a receiver that is none of its
    operands: [Inv(w - x) * (v - x) * Inv(v - y) * (w - y)], computed from
    left to right. *)
Definition CrossRatio (v w x y : t) : outcome t :=
  let z := Sub w x in
  z <- Inv z ;;
  let temp := Sub v x in
  let z := Mul z temp in
  let temp := Sub v y in
  temp <- Inv temp ;;
  let z := Mul z temp in
  let temp := Sub w y in
  Ok (Mul z temp).

(** The value [Möbius] leaves in a receiver that is none of its operands:
    [(a*y + b) * Inv(c*y + d)]. *)
Definition Möbius (y a b c d : t) : outcome t :=
  let z := Mul a y in
  let z := Add z b in
  let temp := Mul c y in
  let temp := Add temp d in
  temp <- Inv temp ;;
  Ok (Mul z temp).

End Infra.

(** The four in-place scalar quotients that end [Inv], [QuoL] and [QuoR] of
    every four-component type:
    [z.l.l.Quo(&z.l.l, quad)], ..., [z.r.r.Quo(&z.r.r, quad)]. *)
Definition Quo4 (ll lr rl rr quad : BigFloat.t)
  : outcome (BigFloat.t * BigFloat.t * BigFloat.t * BigFloat.t) :=
  a <- BigFloat.Quo ll quad ;;
  b <- BigFloat.Quo lr quad ;;
  c <- BigFloat.Quo rl quad ;;
  d <- BigFloat.Quo rr quad ;;
  Ok (a, b, c, d).

(** ** Hamilton: pairs of Complex, Mul(j, j) = -1 *)

Module Hamilton.

Record t : Type := mk { l : Complex.t; r : Complex.t }.

Definition new : t := mk Complex.new Complex.new.

Definition NewHamilton (a b c d : BigFloat.t) : t :=
  mk (Complex.mk a b) (Complex.mk c d).

Definition Equals (z y : t) : bool :=
  if negb (Complex.Equals (l z) (l y)) || negb (Complex.Equals (r z) (r y))
  then false else true.

Definition Scal (y : t) (a : BigFloat.t) : t :=
  mk (Complex.Scal (l y) a) (Complex.Scal (r y) a).

Definition Neg (y : t) : t :=
  mk (Complex.Neg (l y)) (Complex.Neg (r y)).

Definition Conj (y : t) : t :=
  mk (Complex.Conj (l y)) (Complex.Neg (r y)).

Definition Add (x y : t) : t :=
  mk (Complex.Add (l x) (l y)) (Complex.Add (r x) (r y)).

Definition Sub (x y : t) : t :=
  mk (Complex.Sub (l x) (l y)) (Complex.Sub (r x) (r y)).

Definition Mul (x y : t) : t :=
  let a := l x in
  let b := r x in
  let c := l y in
  let d := r y in
  mk (Complex.Sub (Complex.Mul a c)
                  (Complex.Mul (Complex.Conj d) b))
     (Complex.Add (Complex.Mul d a)
                  (Complex.Mul b (Complex.Conj c))).

(** The value [Commutator] leaves in a receiver that is neither operand. *)
Definition Commutator (x y : t) : t :=
  Sub (Mul x y) (Mul y x).

Definition Quad (z : t) : BigFloat.t :=
  BigFloat.Add (Complex.Quad (l z)) (Complex.Quad (r z)).

(** The four scalar quotients by [quad] that end [Inv], [QuoL] and
    [QuoR], each written back into the component it divides. *)
Definition div4 (z : t) (quad : BigFloat.t) : outcome t :=
  q <- Quo4 (Complex.l (l z)) (Complex.r (l z))
            (Complex.l (r z)) (Complex.r (r z)) quad ;;
  let '(a, b, c, d) := q in Ok (NewHamilton a b c d).

Definition Inv (y : t) : outcome t :=
  if Equals y new then Panic "inverse of zero" else
  let quad := Quad y in
  let z := Conj y in
  div4 z quad.

(** The value [QuoL] leaves in a receiver that is not the operand [x]. *)
Definition QuoL (x y : t) : outcome t :=
  if Equals y new then Panic "left denominator is zero" else
  let quad := Quad y in
  let z := Conj y in
  let z := Mul z x in
  div4 z quad.

(** The value [QuoR] leaves in a receiver that is not the operand [x]. *)
Definition QuoR (x y : t) : outcome t :=
  if Equals y new then Panic "right denominator is zero" else
  let quad := Quad y in
  let z := Conj y in
  let z := Mul x z in
  div4 z quad.

Definition Real (z : t) : BigFloat.t := Complex.Real (l z).

Definition Cartesian (z : t)
  : BigFloat.t * BigFloat.t * BigFloat.t * BigFloat.t :=
  (Complex.l (l z), Complex.r (l z), Complex.l (r z), Complex.r (r z)).

(** The value [CrossRatioL] leaves in a receiver that is none of its
    operands: [Inv(w - x) * (v - x) * Inv(v - y) * (w - y)], computed from
    left to right. *)
Definition CrossRatioL (v w x y : t) : outcome t :=
  let z := Sub w x in
  z <- Inv z ;;
  let temp := Sub v x in
  let z := Mul z temp in
  let temp := Sub v y in
  temp <- Inv temp ;;
  let z := Mul z temp in
  let temp := Sub w y in
  Ok (Mul z temp).

(** The value [CrossRatioR] leaves in a receiver that is none of its
    operands: [(v - x) * Inv(w - x) * (w - y) * Inv(v - y)]. *)
Definition CrossRatioR (v w x y : t) : outcome t :=
  let z := Sub v x in
  let temp := Sub w x in
  temp <- Inv temp ;;
  let z := Mul z temp in
  let temp := Sub w y in
  let z := Mul z temp in
  let temp := Sub v y in
  temp <- Inv temp ;;
  Ok (Mul z temp).

(** The value [MöbiusL] leaves in a receiver that is none of its operands:
    [Inv(y*c + d) * (y*a + b)]. *)
Definition MöbiusL (y a b c d : t) : outcome t :=
  let z := Mul y a in
  let z := Add z b in
  let temp := Mul y c in
  let temp := Add temp d in
  temp <- Inv temp ;;
  Ok (Mul temp z).

(** The value [MöbiusR] leaves in a receiver that is none of its operands:
    [(a*y + b) * Inv(c*y + d)]. *)
Definition MöbiusR (y a b c d : t) : outcome t :=
  let z := Mul a y in
  let z := Add z b in
  let temp := Mul c y in
  let temp := Add temp d in
  temp <- Inv temp ;;
  Ok (Mul z temp).

End Hamilton.

(** ** Cockle: pairs of Complex, Mul(t, t) = +1 *)

Module Cockle.

Record t : Type := mk { l : Complex.t; r : Complex.t }.

Definition new : t := mk Complex.new Complex.new.

Definition NewCockle (a b c d : BigFloat.t) : t :=
  mk (Complex.mk a b) (Complex.mk c d).

Definition Equals (z y : t) : bool :=
  if negb (Complex.Equals (l z) (l y)) || negb (Complex.Equals (r z) (r y))
  then false else true.

Definition Scal (y : t) (a : BigFloat.t) : t :=
  mk (Complex.Scal (l y) a) (Complex.Scal (r y) a).

Definition Neg (y : t) : t :=
  mk (Complex.Neg (l y)) (Complex.Neg (r y)).

Definition Conj (y : t) : t :=
  mk (Complex.Conj (l y)) (Complex.Neg (r y)).

Definition Add (x y : t) : t :=
  mk (Complex.Add (l x) (l y)) (Complex.Add (r x) (r y)).

Definition Sub (x y : t) : t :=
  mk (Complex.Sub (l x) (l y)) (Complex.Sub (r x) (r y)).

Definition Mul (x y : t) : t :=
  let a := l x in
  let b := r x in
  let c := l y in
  let d := r y in
  mk (Complex.Add (Complex.Mul a c)
                  (Complex.Mul (Complex.Conj d) b))
     (Complex.Add (Complex.Mul d a)
                  (Complex.Mul b (Complex.Conj c))).

(** The value [Commutator] leaves in a receiver that is neither operand. *)
Definition Commutator (x y : t) : t :=
  Sub (Mul x y) (Mul y x).

Definition Quad (z : t) : BigFloat.t :=
  BigFloat.Sub (Complex.Quad (l z)) (Complex.Quad (r z)).

Definition IsZeroDiv (z : t) : bool :=
  Z.eqb (BigFloat.Cmp (Complex.Quad (l z)) (Complex.Quad (r z))) 0.

(** The four scalar quotients by [quad] that end [Inv], [QuoL] and
    [QuoR], each written back into the component it divides. *)
Definition div4 (z : t) (quad : BigFloat.t) : outcome t :=
  q <- Quo4 (Complex.l (l z)) (Complex.r (l z))
            (Complex.l (r z)) (Complex.r (r z)) quad ;;
  let '(a, b, c, d) := q in Ok (NewCockle a b c d).

Definition Inv (y : t) : outcome t :=
  if IsZeroDiv y then Panic "inverse of zero divisor" else
  let quad := Quad y in
  let z := Conj y in
  div4 z quad.

(** The value [QuoL] leaves in a receiver that is not the operand [x]. *)
Definition QuoL (x y : t) : outcome t :=
  if IsZeroDiv y then Panic "denominator is zero divisor" else
  let quad := Quad y in
  let z := Conj y in
  let z := Mul z x in
  div4 z quad.

(** The value [QuoR] leaves in a receiver that is not the operand [x]. *)
Definition QuoR (x y : t) : outcome t :=
  if IsZeroDiv y then Panic "denominator is zero divisor" else
  let quad := Quad y in
  let z := Conj y in
  let z := Mul x z in
  div4 z quad.

(** The loop of [IsNilpotent]: [k] iterations are left, [p] is the
    receiver of [p.Mul(p, z)], whose operands [Mul] copies before it
    writes. *)
Fixpoint nilpotent_loop (k : nat) (p z : t) : bool :=
  match k with
  | O => false
  | S k' =>
      let p := Mul p z in
      if Equals p new then true else nilpotent_loop k' p z
  end.

(** [n] is a Go [int]; [for i := 0; i < n; i++] runs [n] times, and not at
    all when [n <= 0]. *)
Definition IsNilpotent (z : t) (n : Z) : bool :=
  let zero := new in
  let zeroFloat := BigFloat.new in
  if Equals z zero then true else
  let p := NewCockle BigFloat.one zeroFloat zeroFloat zeroFloat in
  nilpotent_loop (Z.to_nat n) p z.

Definition Real (z : t) : BigFloat.t := Complex.Real (l z).

Definition Cartesian (z : t)
  : BigFloat.t * BigFloat.t * BigFloat.t * BigFloat.t :=
  (Complex.l (l z), Complex.r (l z), Complex.l (r z), Complex.r (r z)).

(** The value [CrossRatioL] leaves in a receiver that is none of its
    operands: [Inv(w - x) * (v - x) * Inv(v - y) * (w - y)], computed from
    left to right. *)
Definition CrossRatioL (v w x y : t) : outcome t :=
  let z := Sub w x in
  z <- Inv z ;;
  let temp := Sub v x in
  let z := Mul z temp in
  let temp := Sub v y in
  temp <- Inv temp ;;
  let z := Mul z temp in
  let temp := Sub w y in
  Ok (Mul z temp).

(** The value [CrossRatioR] leaves in a receiver that is none of its
    operands: [(v - x) * Inv(w - x) * (w - y) * Inv(v - y)]. *)
Definition CrossRatioR (v w x y : t) : outcome t :=
  let z := Sub v x in
  let temp := Sub w x in
  temp <- Inv temp ;;
  let z := Mul z temp in
  let temp := Sub w y in
  let z := Mul z temp in
  let temp := Sub v y in
  temp <- Inv temp ;;
  Ok (Mul z temp).

(** The value [MöbiusL] leaves in a receiver that is none of its operands:
    [Inv(y*c + d) * (y*a + b)]. *)
Definition MöbiusL (y a b c d : t) : outcome t :=
  let z := Mul y a in
  let z := Add z b in
  let temp := Mul y c in
  let temp := Add temp d in
  temp <- Inv temp ;;
  Ok (Mul temp z).

(** The value [MöbiusR] leaves in a receiver that is none of its operands:
    [(a*y + b) * Inv(c*y + d)]. *)
Definition MöbiusR (y a b c d : t) : outcome t :=
  let z := Mul a y in
  let z := Add z b in
  let temp := Mul c y in
  let temp := Add temp d in
  temp <- Inv temp ;;
  Ok (Mul z temp).

End Cockle.

(** ** Supra: pairs of Infra, Mul(β, β) = 0 *)

Module Supra.

Record t : Type := mk { l : Infra.t; r : Infra.t }.

Definition new : t := mk Infra.new Infra.new.

Definition NewSupra (a b c d : BigFloat.t) : t :=
  mk (Infra.mk a b) (Infra.mk c d).

Definition Equals (z y : t) : bool :=
  if negb (Infra.Equals (l z) (l y)) || negb (Infra.Equals (r z) (r y))
  then false else true.

Definition Scal (y : t) (a : BigFloat.t) : t :=
  mk (Infra.Scal (l y) a) (Infra.Scal (r y) a).

Definition Neg (y : t) : t :=
  mk (Infra.Neg (l y)) (Infra.Neg (r y)).

Definition Conj (y : t) : t :=
  mk (Infra.Conj (l y)) (Infra.Neg (r y)).

Definition Add (x y : t) : t :=
  mk (Infra.Add (l x) (l y)) (Infra.Add (r x) (r y)).

Definition Sub (x y : t) : t :=
  mk (Infra.Sub (l x) (l y)) (Infra.Sub (r x) (r y)).

Definition Mul (x y : t) : t :=
  let a := l x in
  let b := r x in
  let c := l y in
  let d := r y in
  mk (Infra.Mul a c)
     (Infra.Add (Infra.Mul d a)
                (Infra.Mul b (Infra.Conj c))).

(** The value [Commutator] leaves in a receiver that is neither operand. *)
Definition Commutator (x y : t) : t :=
  Sub (Mul x y) (Mul y x).

Definition Quad (z : t) : BigFloat.t :=
  Infra.Quad (l z).

Definition IsZeroDiv (z : t) : bool :=
  Infra.IsZeroDiv (l z).

(** The four scalar quotients by [quad] that end [Inv], [QuoL] and
    [QuoR], each written back into the component it divides. *)
Definition div4 (z : t) (quad : BigFloat.t) : outcome t :=
  q <- Quo4 (Infra.l (l z)) (Infra.r (l z))
            (Infra.l (r z)) (Infra.r (r z)) quad ;;
  let '(a, b, c, d) := q in Ok (NewSupra a b c d).

Definition Inv (y : t) : outcome t :=
  if IsZeroDiv y then Panic "inverse of zero divisor" else
  let quad := Quad y in
  let z := Conj y in
  div4 z quad.

(** The value [QuoL] leaves in a receiver that is not the operand [x]. *)
Definition QuoL (x y : t) : outcome t :=
  if IsZeroDiv y then Panic "denominator is zero divisor" else
  let quad := Quad y in
  let z := Conj y in
  let z := Mul z x in
  div4 z quad.

(** The value [QuoR] leaves in a receiver that is not the operand [x]. *)
Definition QuoR (x y : t) : outcome t :=
  if IsZeroDiv y then Panic "denominator is zero divisor" else
  let quad := Quad y in
  let z := Conj y in
  let z := Mul x z in
  div4 z quad.

Definition Real (z : t) : BigFloat.t := Infra.Real (l z).

Definition Cartesian (z : t)
  : BigFloat.t * BigFloat.t * BigFloat.t * BigFloat.t :=
  (Infra.l (l z), Infra.r (l z), Infra.l (r z), Infra.r (r z)).

(** The value [CrossFloatioL] leaves in a receiver that is none of its
    operands: [Inv(w - x) * (v - x) * Inv(v - y) * (w - y)], computed from
    left to right. *)
Definition CrossFloatioL (v w x y : t) : outcome t :=
  let z := Sub w x in
  z <- Inv z ;;
  let temp := Sub v x in
  let z := Mul z temp in
  let temp := Sub v y in
  temp <- Inv temp ;;
  let z := Mul z temp in
  let temp := Sub w y in
  Ok (Mul z temp).

(** The value [CrossFloatioR] leaves in a receiver that is none of its
    operands: [(v - x) * Inv(w - x) * (w - y) * Inv(v - y)]. *)
Definition CrossFloatioR (v w x y : t) : outcome t :=
  let z := Sub v x in
  let temp := Sub w x in
  temp <- Inv temp ;;
  let z := Mul z temp in
  let temp := Sub w y in
  let z := Mul z temp in
  let temp := Sub v y in
  temp <- Inv temp ;;
  Ok (Mul z temp).

(** The value [MöbiusL] leaves in a receiver that is none of its operands:
    [Inv(y*c + d) * (y*a + b)]. *)
Definition MöbiusL (y a b c d : t) : outcome t :=
  let z := Mul y a in
  let z := Add z b in
  let temp := Mul y c in
  let temp := Add temp d in
  temp <- Inv temp ;;
  Ok (Mul temp z).

(** The value [MöbiusR] leaves in a receiver that is none of its operands:
    [(a*y + b) * Inv(c*y + d)]. *)
Definition MöbiusR (y a b c d : t) : outcome t :=
  let z := Mul a y in
  let z := Add z b in
  let temp := Mul c y in
  let temp := Add temp d in
  temp <- Inv temp ;;
  Ok (Mul z temp).

End Supra.

(** * The methods on pointers

    The source writes every result through a pointer receiver [z], which
    may be one of the operands.  Here the methods are modelled as the
    source writes them: a store of scalar cells, a [Complex] at address [p]
    holding its [l] in cell [p] and its [r] in cell [p + 1], a [Hamilton]
    at [p] holding its [l] at [p] and its [r] at [p + 2]; every method is a
    store transformer that returns its receiver. *)

Definition addr : Type := nat.
Bind Scope nat_scope with addr.

Record store : Type := mkStore { cell : addr -> BigFloat.t; next : addr }.

Definition M (A : Type) : Type := store -> outcome (A * store).

Definition ret {A : Type} (a : A) : M A := fun s => Ok (a, s).

Definition mbind {A B : Type} (m : M A) (k : A -> M B) : M B :=
  fun s =>
    match m s with
    | Ok (a, s') => k a s'
    | Panic msg => Panic msg
    | NoQuotient => NoQuotient
    end.

Definition panic {A : Type} (msg : string) : M A := fun _ => Panic msg.

Notation "'do' x <- m ; k" := (mbind m (fun x => k))
  (at level 10, x name, m at level 100, k at level 200).

Definition read (p : addr) : M BigFloat.t := fun s => Ok (cell s p, s).

(** The store after cell [p] is set to [v]. *)
Definition upd (s : store) (p : addr) (v : BigFloat.t) : store :=
  mkStore (fun a => if Nat.eqb a p then v else cell s a) (next s).

(** The store after [n] fresh cells, zeroed, are added. *)
Definition grow (s : store) (n : nat) : store :=
  mkStore (fun a => if Nat.leb (next s) a then BigFloat.new else cell s a)
          (next s + n)%nat.

Definition write (p : addr) (v : BigFloat.t) : M unit :=
  fun s => Ok (tt, upd s p v).

Definition alloc (n : nat) : M addr :=
  fun s => Ok (next s, grow s n).

(** ** big.Float methods, receiver first *)

Module FloatPtr.

Definition new : M addr := alloc 1.

Definition Copy (z x : addr) : M addr :=
  do v <- read x; do _ <- write z v; ret z.

Definition Neg (z x : addr) : M addr :=
  do v <- read x; do _ <- write z (BigFloat.Neg v); ret z.

Definition Add (z x y : addr) : M addr :=
  do u <- read x; do v <- read y; do _ <- write z (BigFloat.Add u v); ret z.

Definition Sub (z x y : addr) : M addr :=
  do u <- read x; do v <- read y; do _ <- write z (BigFloat.Sub u v); ret z.

Definition Mul (z x y : addr) : M addr :=
  do u <- read x; do v <- read y; do _ <- write z (BigFloat.Mul u v); ret z.

Definition Quo (z x y : addr) : M addr :=
  do u <- read x; do v <- read y;
  match BigFloat.Quo u v with
  | Ok q => do _ <- write z q; ret z
  | Panic msg => panic msg
  | NoQuotient => fun _ => NoQuotient
  end.

Definition Cmp (x y : addr) : M Z :=
  do u <- read x; do v <- read y; ret (BigFloat.Cmp u v).

End FloatPtr.

(** ** complex.go on pointers *)

Module ComplexPtr.

Definition l (z : addr) : addr := z.
Definition r (z : addr) : addr := (z + 1)%nat.

(** The value a pointer refers to. *)
Definition load (s : store) (z : addr) : Complex.t :=
  Complex.mk (cell s (l z)) (cell s (r z)).

Definition new : M addr := alloc 2.

Definition Equals (z y : addr) : M bool :=
  do c1 <- FloatPtr.Cmp (l z) (l y);
  do c2 <- FloatPtr.Cmp (r z) (r y);
  if negb (Z.eqb c1 0) || negb (Z.eqb c2 0) then ret false else ret true.

Definition Copy (z y : addr) : M addr :=
  do _ <- FloatPtr.Copy (l z) (l y);
  do _ <- FloatPtr.Copy (r z) (r y);
  ret z.

Definition Neg (z y : addr) : M addr :=
  do _ <- FloatPtr.Neg (l z) (l y);
  do _ <- FloatPtr.Neg (r z) (r y);
  ret z.

Definition Conj (z y : addr) : M addr :=
  do _ <- FloatPtr.Copy (l z) (l y);
  do _ <- FloatPtr.Neg (r z) (r y);
  ret z.

Definition Add (z x y : addr) : M addr :=
  do _ <- FloatPtr.Add (l z) (l x) (l y);
  do _ <- FloatPtr.Add (r z) (r x) (r y);
  ret z.

Definition Sub (z x y : addr) : M addr :=
  do _ <- FloatPtr.Sub (l z) (l x) (l y);
  do _ <- FloatPtr.Sub (r z) (r x) (r y);
  ret z.

Definition Mul (z x y : addr) : M addr :=
  do a <- FloatPtr.new; do a <- FloatPtr.Copy a (l x);
  do b <- FloatPtr.new; do b <- FloatPtr.Copy b (r x);
  do c <- FloatPtr.new; do c <- FloatPtr.Copy c (l y);
  do d <- FloatPtr.new; do d <- FloatPtr.Copy d (r y);
  do temp <- FloatPtr.new;
  do t1 <- FloatPtr.Mul (l z) a c;
  do t2 <- FloatPtr.Mul temp d b;
  do _ <- FloatPtr.Sub (l z) t1 t2;
  do t3 <- FloatPtr.Mul (r z) d a;
  do t4 <- FloatPtr.Mul temp b c;
  do _ <- FloatPtr.Add (r z) t3 t4;
  ret z.

Definition Quad (z : addr) : M addr :=
  do quad <- FloatPtr.new;
  do t1 <- FloatPtr.Mul quad (l z) (l z);
  do t <- FloatPtr.new;
  do t2 <- FloatPtr.Mul t (r z) (r z);
  FloatPtr.Add quad t1 t2.

Definition Inv (z y : addr) : M addr :=
  do zero <- new;
  do e <- Equals y zero;
  if e then panic "zero inverse" else
  do quad <- Quad y;
  do _ <- Conj z y;
  do _ <- FloatPtr.Quo (l z) (l z) quad;
  do _ <- FloatPtr.Quo (r z) (r z) quad;
  ret z.

Definition Quo (z x y : addr) : M addr :=
  do zero <- new;
  do e <- Equals y zero;
  if e then panic "zero denominator" else
  do quad <- Quad y;
  do _ <- Conj z y;
  do _ <- Mul z x z;
  do _ <- FloatPtr.Quo (l z) (l z) quad;
  do _ <- FloatPtr.Quo (r z) (r z) quad;
  ret z.

Definition CrossRatio (z v w x y : addr) : M addr :=
  do temp <- new;
  do _ <- Sub z w x;
  do _ <- Inv z z;
  do _ <- Sub temp v x;
  do _ <- Mul z z temp;
  do _ <- Sub temp v y;
  do _ <- Inv temp temp;
  do _ <- Mul z z temp;
  do _ <- Sub temp w y;
  do _ <- Mul z z temp;
  ret z.

Definition Möbius (z y a b c d : addr) : M addr :=
  do _ <- Mul z a y;
  do _ <- Add z z b;
  do temp <- new;
  do _ <- Mul temp c y;
  do _ <- Add temp temp d;
  do _ <- Inv temp temp;
  do _ <- Mul z z temp;
  ret z.

End ComplexPtr.

(** ** hamilton.go on pointers *)

Module HamiltonPtr.

Definition l (z : addr) : addr := z.
Definition r (z : addr) : addr := (z + 2)%nat.

Definition load (s : store) (z : addr) : Hamilton.t :=
  Hamilton.mk (ComplexPtr.load s (l z)) (ComplexPtr.load s (r z)).

Definition new : M addr := alloc 4.

Definition Equals (z y : addr) : M bool :=
  do e1 <- ComplexPtr.Equals (l z) (l y);
  do e2 <- ComplexPtr.Equals (r z) (r y);
  if negb e1 || negb e2 then ret false else ret true.

Definition Conj (z y : addr) : M addr :=
  do _ <- ComplexPtr.Conj (l z) (l y);
  do _ <- ComplexPtr.Neg (r z) (r y);
  ret z.

Definition Sub (z x y : addr) : M addr :=
  do _ <- ComplexPtr.Sub (l z) (l x) (l y);
  do _ <- ComplexPtr.Sub (r z) (r x) (r y);
  ret z.

Definition Mul (z x y : addr) : M addr :=
  do a <- ComplexPtr.new; do a <- ComplexPtr.Copy a (l x);
  do b <- ComplexPtr.new; do b <- ComplexPtr.Copy b (r x);
  do c <- ComplexPtr.new; do c <- ComplexPtr.Copy c (l y);
  do d <- ComplexPtr.new; do d <- ComplexPtr.Copy d (r y);
  do temp <- ComplexPtr.new;
  do t1 <- ComplexPtr.Mul (l z) a c;
  do t <- ComplexPtr.Conj temp d;
  do t2 <- ComplexPtr.Mul temp t b;
  do _ <- ComplexPtr.Sub (l z) t1 t2;
  do t3 <- ComplexPtr.Mul (r z) d a;
  do t <- ComplexPtr.Conj temp c;
  do t4 <- ComplexPtr.Mul temp b t;
  do _ <- ComplexPtr.Add (r z) t3 t4;
  ret z.

Definition Commutator (z x y : addr) : M addr :=
  do t1 <- Mul z x y;
  do n <- new;
  do t2 <- Mul n y x;
  Sub z t1 t2.

Definition Quad (z : addr) : M addr :=
  do q <- FloatPtr.new;
  do q1 <- ComplexPtr.Quad (l z);
  do q2 <- ComplexPtr.Quad (r z);
  FloatPtr.Add q q1 q2.

Definition QuoR (z x y : addr) : M addr :=
  do zero <- new;
  do e <- Equals y zero;
  if e then panic "right denominator is zero" else
  do quad <- Quad y;
  do _ <- Conj z y;
  do _ <- Mul z x z;
  do _ <- FloatPtr.Quo (ComplexPtr.l (l z)) (ComplexPtr.l (l z)) quad;
  do _ <- FloatPtr.Quo (ComplexPtr.r (l z)) (ComplexPtr.r (l z)) quad;
  do _ <- FloatPtr.Quo (ComplexPtr.l (r z)) (ComplexPtr.l (r z)) quad;
  do _ <- FloatPtr.Quo (ComplexPtr.r (r z)) (ComplexPtr.r (r z)) quad;
  ret z.

End HamiltonPtr.

(** The value a call leaves behind the pointer it returns. *)
Definition result_at {T : Type} (load : store -> addr -> T) (m : M addr)
           (s : store) : outcome T :=
  match m s with
  | Ok (p, s') => Ok (load s' p)
  | Panic msg => Panic msg
  | NoQuotient => NoQuotient
  end.

(** A store holding the scalars [vs] in cells 0, 1, 2, ... *)
Definition store_of (vs : list BigFloat.t) : store :=
  mkStore (fun a => nth a vs BigFloat.new) (length vs).

(** ** What a method writes

    [writes m s z v]: run in store [s], the method [m] returns the pointer
    [z], leaves the value [v] behind it, and changes no other cell that was
    allocated in [s]. *)

Definition upd2 (s : store) (z : addr) (v : Complex.t) : store :=
  upd (upd s z (Complex.l v)) (z + 1) (Complex.r v).

Definition agree (n : addr) (s1 s2 : store) : Prop :=
  forall p, (p < n)%nat -> cell s1 p = cell s2 p.

Definition writes (m : M addr) (s : store) (z : addr) (v : Complex.t) : Prop :=
  match m s with
  | Ok (p, s') => p = z /\ (next s <= next s')%nat
                  /\ agree (next s) s' (upd2 s z v)
  | _ => False
  end.

(** Two Complex objects: the same one, or disjoint. *)
Definition objs (z y : addr) : Prop := z = y \/ (z + 1 < y)%nat \/ (y + 1 < z)%nat.

Definition upd4 (s : store) (z : addr) (v : Hamilton.t) : store :=
  upd2 (upd2 s z (Hamilton.l v)) (z + 2) (Hamilton.r v).

Definition writes4 (m : M addr) (s : store) (z : addr) (v : Hamilton.t) : Prop :=
  match m s with
  | Ok (p, s') => p = z /\ (next s <= next s')%nat
                  /\ agree (next s) s' (upd4 s z v)
  | _ => False
  end.

Definition objs4 (z y : addr) : Prop :=
  z = y \/ (z + 3 < y)%nat \/ (y + 3 < z)%nat.

(** * Definitions the properties are stated with *)

(** ** The products of the specification

    These two definitions follow the specification's words, not the code:
    the two-component product with unit square [eps], and the doubled
    product with doubling sign [sigma] over a base algebra given by its
    operations. *)

Definition rank1_product (eps : Z) (a b c d : BigFloat.t)
  : BigFloat.t * BigFloat.t :=
  (a * c + BigFloat.of_Z eps * b * d, a * d + b * c).

Section Doubling.

Variable base : Type.
Variable mul add : base -> base -> base.
Variable conj : base -> base.
Variable scal : base -> BigFloat.t -> base.

Definition rank2_product (sigma : Z) (a b c d : base) : base * base :=
  (add (mul a c) (scal (mul (conj d) b) (BigFloat.of_Z sigma)),
   add (mul d a) (mul b (conj c))).

End Doubling.


(** [o] fails with kind [k] when [P] holds and returns a value otherwise. *)
Definition fails_exactly_when {A : Type} (o : outcome A) (k : DomainError)
           (P : Prop) : Prop :=
  (fails_with o k <-> P) /\ (returns o <-> ~ P).

(** Values with integer components, for examples. *)
Definition complexZ (a b : Z) : Complex.t :=
  Complex.mk (BigFloat.of_Z a) (BigFloat.of_Z b).
Definition infraZ (a b : Z) : Infra.t :=
  Infra.mk (BigFloat.of_Z a) (BigFloat.of_Z b).
Definition hamiltonZ (a b c d : Z) : Hamilton.t :=
  Hamilton.NewHamilton (BigFloat.of_Z a) (BigFloat.of_Z b)
                       (BigFloat.of_Z c) (BigFloat.of_Z d).
Definition cockleZ (a b c d : Z) : Cockle.t :=
  Cockle.NewCockle (BigFloat.of_Z a) (BigFloat.of_Z b)
                   (BigFloat.of_Z c) (BigFloat.of_Z d).
Definition supraZ (a b c d : Z) : Supra.t :=
  Supra.NewSupra (BigFloat.of_Z a) (BigFloat.of_Z b)
                 (BigFloat.of_Z c) (BigFloat.of_Z d).

(** The partial powers of the specification: [p_0 = p0] and
    [p_(i+1) = Mul(p_i, x)]. *)
Fixpoint partial_power (p0 x : Cockle.t) (i : nat) : Cockle.t :=
  match i with
  | O => p0
  | S i' => Cockle.Mul (partial_power p0 x i') x
  end.

Definition Cockle_one : Cockle.t :=
  Cockle.NewCockle BigFloat.one BigFloat.new BigFloat.new BigFloat.new.

(** The multiplicative identities (the tests build them as
    [&Complex{l: *big.NewFloat(1)}]). *)
Definition Complex_one : Complex.t :=
  Complex.NewComplex BigFloat.one BigFloat.new.
Definition Perplex_one : Perplex.t :=
  Perplex.NewPerplex BigFloat.one BigFloat.new.
Definition Infra_one : Infra.t :=
  Infra.NewInfra BigFloat.one BigFloat.new.
Definition Hamilton_one : Hamilton.t :=
  Hamilton.NewHamilton BigFloat.one BigFloat.new BigFloat.new BigFloat.new.
Definition Supra_one : Supra.t :=
  Supra.NewSupra BigFloat.one BigFloat.new BigFloat.new BigFloat.new.

(** [big.NewFloat(2)]. *)
Definition two : BigFloat.t := BigFloat.of_Z 2.

(** * Properties *)

(** ** Scalar facts *)

Lemma Cmp_zero_iff (x y : BigFloat.t) :
  Z.eqb (BigFloat.Cmp x y) 0 = true <-> x = y.
Proof.
  unfold BigFloat.Cmp. rewrite Qceq_alt.
  destruct (Qccompare x y); simpl; split; intro H; congruence.
Qed.

Lemma differ_false_iff (x y : BigFloat.t) : differ x y = false <-> x = y.
Proof.
  unfold differ. rewrite negb_false_iff. apply Cmp_zero_iff.
Qed.

Lemma Quo_nonzero (x y : BigFloat.t) :
  y <> 0 -> BigFloat.Quo x y = Ok (x / y).
Proof.
  intro H. unfold BigFloat.Quo.
  destruct (Qc_eq_bool y 0) eqn:E; [ | reflexivity ].
  apply Qc_eq_bool_correct in E. contradiction.
Qed.

Lemma Quo_zero (x : BigFloat.t) : BigFloat.Quo x 0 = NoQuotient.
Proof. reflexivity. Qed.

Lemma of_Z_minus_one : BigFloat.of_Z (-1) = - (1).
Proof. apply Qc_is_canon. reflexivity. Qed.

Lemma of_Z_one : BigFloat.of_Z 1 = 1.
Proof. apply Qc_is_canon. reflexivity. Qed.

Lemma of_Z_zero : BigFloat.of_Z 0 = 0.
Proof. apply Qc_is_canon. reflexivity. Qed.

Ltac scalar_unfold :=
  unfold BigFloat.Add, BigFloat.Sub, BigFloat.Mul, BigFloat.Neg,
         BigFloat.new, BigFloat.one in *;
  change BigFloat.t with Qc in *;
  rewrite ?of_Z_minus_one, ?of_Z_one, ?of_Z_zero in *.

(** ** Equality tests decide equality *)

Lemma differ_refl (x : BigFloat.t) : differ x x = false.
Proof. apply differ_false_iff. reflexivity. Qed.

Lemma cells_equal_iff (a b c d : BigFloat.t) :
  (if differ a c || differ b d then false else true) = true
  <-> a = c /\ b = d.
Proof.
  rewrite <- (differ_false_iff a c), <- (differ_false_iff b d).
  destruct (differ a c), (differ b d); simpl; intuition congruence.
Qed.

Lemma Complex_Equals_iff (z y : Complex.t) :
  Complex.Equals z y = true <-> z = y.
Proof.
  destruct z as [a b], y as [c d]. unfold Complex.Equals. simpl.
  rewrite cells_equal_iff. split.
  - intros [-> ->]. reflexivity.
  - intro H. injection H as -> ->. split; reflexivity.
Qed.

Lemma Perplex_Equals_iff (z y : Perplex.t) :
  Perplex.Equals z y = true <-> z = y.
Proof.
  destruct z as [a b], y as [c d]. unfold Perplex.Equals. simpl.
  rewrite cells_equal_iff. split.
  - intros [-> ->]. reflexivity.
  - intro H. injection H as -> ->. split; reflexivity.
Qed.

Lemma Infra_Equals_iff (z y : Infra.t) :
  Infra.Equals z y = true <-> z = y.
Proof.
  destruct z as [a b], y as [c d]. unfold Infra.Equals. simpl.
  rewrite cells_equal_iff. split.
  - intros [-> ->]. reflexivity.
  - intro H. injection H as -> ->. split; reflexivity.
Qed.

Lemma halves_equal_iff (p q : bool) (P Q : Prop) :
  (p = true <-> P) -> (q = true <-> Q) ->
  ((if negb p || negb q then false else true) = true <-> P /\ Q).
Proof.
  intros Hp Hq. destruct p, q; simpl; intuition congruence.
Qed.

Lemma Hamilton_Equals_iff (z y : Hamilton.t) :
  Hamilton.Equals z y = true <-> z = y.
Proof.
  destruct z as [a b], y as [c d]. unfold Hamilton.Equals. simpl.
  rewrite (halves_equal_iff _ _ _ _
             (Complex_Equals_iff a c) (Complex_Equals_iff b d)).
  split.
  - intros [-> ->]. reflexivity.
  - intro H. injection H as -> ->. split; reflexivity.
Qed.

Lemma Cockle_Equals_iff (z y : Cockle.t) :
  Cockle.Equals z y = true <-> z = y.
Proof.
  destruct z as [a b], y as [c d]. unfold Cockle.Equals. simpl.
  rewrite (halves_equal_iff _ _ _ _
             (Complex_Equals_iff a c) (Complex_Equals_iff b d)).
  split.
  - intros [-> ->]. reflexivity.
  - intro H. injection H as -> ->. split; reflexivity.
Qed.

Lemma Supra_Equals_iff (z y : Supra.t) :
  Supra.Equals z y = true <-> z = y.
Proof.
  destruct z as [a b], y as [c d]. unfold Supra.Equals. simpl.
  rewrite (halves_equal_iff _ _ _ _
             (Infra_Equals_iff a c) (Infra_Equals_iff b d)).
  split.
  - intros [-> ->]. reflexivity.
  - intro H. injection H as -> ->. split; reflexivity.
Qed.

Ltac rank1_ring :=
  intros;
  repeat match goal with
         | x : Complex.t |- _ => destruct x
         | x : Perplex.t |- _ => destruct x
         | x : Infra.t |- _ => destruct x
         end;
  cbv [Complex.Mul Complex.Conj Complex.Add Complex.Sub Complex.Neg
       Complex.Scal Complex.Quad Complex.l Complex.r Complex.new
       Perplex.Mul Perplex.Conj Perplex.Add Perplex.Sub Perplex.Neg
       Perplex.Scal Perplex.Quad Perplex.l Perplex.r Perplex.new
       Infra.Mul Infra.Conj Infra.Add Infra.Sub Infra.Neg
       Infra.Scal Infra.Quad Infra.l Infra.r Infra.new
       rank1_product rank2_product fst snd];
  scalar_unfold;
  try (f_equal; ring).

Ltac rank2_ring :=
  intros;
  repeat match goal with
         | x : Hamilton.t |- _ => destruct x
         | x : Cockle.t |- _ => destruct x
         | x : Supra.t |- _ => destruct x
         end;
  cbv [Hamilton.Mul Hamilton.Conj Hamilton.Add Hamilton.Sub Hamilton.Neg
       Hamilton.Scal Hamilton.Quad Hamilton.l Hamilton.r Hamilton.new
       Hamilton.Commutator Hamilton.NewHamilton
       Cockle.Mul Cockle.Conj Cockle.Add Cockle.Sub Cockle.Neg
       Cockle.Scal Cockle.Quad Cockle.l Cockle.r Cockle.new
       Cockle.Commutator Cockle.NewCockle
       Supra.Mul Supra.Conj Supra.Add Supra.Sub Supra.Neg
       Supra.Scal Supra.Quad Supra.l Supra.r Supra.new
       Supra.Commutator Supra.NewSupra];
  rank1_ring;
  try (f_equal; f_equal; ring).

(** ** Two-component products *)


Lemma Complex_Mul_assoc (x y z : Complex.t) :
  Complex.Mul (Complex.Mul x y) z = Complex.Mul x (Complex.Mul y z).
Proof. rank1_ring. Qed.


Lemma Perplex_Mul_assoc (x y z : Perplex.t) :
  Perplex.Mul (Perplex.Mul x y) z = Perplex.Mul x (Perplex.Mul y z).
Proof. rank1_ring. Qed.


Lemma Infra_Mul_assoc (x y z : Infra.t) :
  Infra.Mul (Infra.Mul x y) z = Infra.Mul x (Infra.Mul y z).
Proof. rank1_ring. Qed.





(** ** Four-component products *)

Lemma Hamilton_Mul_formula (a b c d : Complex.t) :
  Hamilton.Mul (Hamilton.mk a b) (Hamilton.mk c d)
  = Hamilton.mk
      (fst (rank2_product Complex.t Complex.Mul Complex.Add Complex.Conj
                          Complex.Scal (-1) a b c d))
      (snd (rank2_product Complex.t Complex.Mul Complex.Add Complex.Conj
                          Complex.Scal (-1) a b c d)).
Proof. rank2_ring. Qed.

Lemma Cockle_Mul_formula (a b c d : Complex.t) :
  Cockle.Mul (Cockle.mk a b) (Cockle.mk c d)
  = Cockle.mk
      (fst (rank2_product Complex.t Complex.Mul Complex.Add Complex.Conj
                          Complex.Scal 1 a b c d))
      (snd (rank2_product Complex.t Complex.Mul Complex.Add Complex.Conj
                          Complex.Scal 1 a b c d)).
Proof. rank2_ring. Qed.

Lemma Supra_Mul_formula (a b c d : Infra.t) :
  Supra.Mul (Supra.mk a b) (Supra.mk c d)
  = Supra.mk
      (fst (rank2_product Infra.t Infra.Mul Infra.Add Infra.Conj
                          Infra.Scal 0 a b c d))
      (snd (rank2_product Infra.t Infra.Mul Infra.Add Infra.Conj
                          Infra.Scal 0 a b c d)).
Proof. rank2_ring. Qed.

(** C1.  For x = (a,b) and y = (c,d) the product of each four-component
    algebra has left half a·c + σ·Conj(d)·b and right half d·a + b·Conj(c),
    with σ = -1 for Hamilton, +1 for Cockle and 0 for Supra, over the
    operations of the base algebra; for Supra the left half is a·c. *)
Theorem Rank2_Mul_doubling_formula :
  (forall a b c d,
      Hamilton.Mul (Hamilton.mk a b) (Hamilton.mk c d)
      = Hamilton.mk
          (fst (rank2_product Complex.t Complex.Mul Complex.Add Complex.Conj
                              Complex.Scal (-1) a b c d))
          (snd (rank2_product Complex.t Complex.Mul Complex.Add Complex.Conj
                              Complex.Scal (-1) a b c d)))
  /\ (forall a b c d,
      Cockle.Mul (Cockle.mk a b) (Cockle.mk c d)
      = Cockle.mk
          (fst (rank2_product Complex.t Complex.Mul Complex.Add Complex.Conj
                              Complex.Scal 1 a b c d))
          (snd (rank2_product Complex.t Complex.Mul Complex.Add Complex.Conj
                              Complex.Scal 1 a b c d)))
  /\ (forall a b c d,
      Supra.Mul (Supra.mk a b) (Supra.mk c d)
      = Supra.mk
          (fst (rank2_product Infra.t Infra.Mul Infra.Add Infra.Conj
                              Infra.Scal 0 a b c d))
          (snd (rank2_product Infra.t Infra.Mul Infra.Add Infra.Conj
                              Infra.Scal 0 a b c d)))
  /\ (forall a b c d,
      Supra.l (Supra.Mul (Supra.mk a b) (Supra.mk c d)) = Infra.Mul a c).
Proof.
  split; [ | split; [ | split ] ].
  - apply Hamilton_Mul_formula.
  - apply Cockle_Mul_formula.
  - apply Supra_Mul_formula.
  - reflexivity.
Qed.

(** ** Conjugation reverses products *)

Lemma Complex_Conj_Mul (x y : Complex.t) :
  Complex.Conj (Complex.Mul x y)
  = Complex.Mul (Complex.Conj y) (Complex.Conj x).
Proof. rank1_ring. Qed.

Lemma Perplex_Conj_Mul (x y : Perplex.t) :
  Perplex.Conj (Perplex.Mul x y)
  = Perplex.Mul (Perplex.Conj y) (Perplex.Conj x).
Proof. rank1_ring. Qed.

Lemma Infra_Conj_Mul (x y : Infra.t) :
  Infra.Conj (Infra.Mul x y) = Infra.Mul (Infra.Conj y) (Infra.Conj x).
Proof. rank1_ring. Qed.

Lemma Hamilton_Conj_Mul (x y : Hamilton.t) :
  Hamilton.Conj (Hamilton.Mul x y)
  = Hamilton.Mul (Hamilton.Conj y) (Hamilton.Conj x).
Proof. rank2_ring. Qed.

Lemma Cockle_Conj_Mul (x y : Cockle.t) :
  Cockle.Conj (Cockle.Mul x y)
  = Cockle.Mul (Cockle.Conj y) (Cockle.Conj x).
Proof. rank2_ring. Qed.

Lemma Supra_Conj_Mul (x y : Supra.t) :
  Supra.Conj (Supra.Mul x y) = Supra.Mul (Supra.Conj y) (Supra.Conj x).
Proof. rank2_ring. Qed.

(** C8.  In each of the six algebras Conj(Mul(x,y)) = Mul(Conj(y),Conj(x)),
    the factors in this order. *)
Theorem Conj_Mul_anti_distributive :
  (forall x y, Complex.Conj (Complex.Mul x y)
               = Complex.Mul (Complex.Conj y) (Complex.Conj x))
  /\ (forall x y, Perplex.Conj (Perplex.Mul x y)
                  = Perplex.Mul (Perplex.Conj y) (Perplex.Conj x))
  /\ (forall x y, Infra.Conj (Infra.Mul x y)
                  = Infra.Mul (Infra.Conj y) (Infra.Conj x))
  /\ (forall x y, Hamilton.Conj (Hamilton.Mul x y)
                  = Hamilton.Mul (Hamilton.Conj y) (Hamilton.Conj x))
  /\ (forall x y, Cockle.Conj (Cockle.Mul x y)
                  = Cockle.Mul (Cockle.Conj y) (Cockle.Conj x))
  /\ (forall x y, Supra.Conj (Supra.Mul x y)
                  = Supra.Mul (Supra.Conj y) (Supra.Conj x)).
Proof.
  repeat split.
  - apply Complex_Conj_Mul.
  - apply Perplex_Conj_Mul.
  - apply Infra_Conj_Mul.
  - apply Hamilton_Conj_Mul.
  - apply Cockle_Conj_Mul.
  - apply Supra_Conj_Mul.
Qed.

(** ** The quadrance of the division algebras *)

Lemma square_nonneg (a : BigFloat.t) : 0 <= a * a.
Proof.
  change BigFloat.t with Qc in *.
  destruct (Qclt_le_dec a 0) as [H | H].
  - assert (H' : 0 <= - a).
    { apply Qclt_le_weak in H. apply Qcopp_le_compat in H.
      replace (- 0) with 0 in H by ring. exact H. }
    replace (a * a) with ((- a) * (- a)) by ring.
    replace 0 with (0 * - a) at 1 by ring.
    apply Qcmult_le_compat_r; assumption.
  - replace 0 with (0 * a) at 1 by ring.
    apply Qcmult_le_compat_r; assumption.
Qed.

Lemma nonneg_sum_zero (u v : BigFloat.t) :
  0 <= u -> 0 <= v -> u + v = 0 -> u = 0 /\ v = 0.
Proof.
  change BigFloat.t with Qc in *. intros Hu Hv H.
  assert (Eu : u = 0).
  { apply Qcle_antisym; [ | exact Hu ].
    replace u with (- v) by (rewrite <- (Qcplus_0_r (- v)), <- H; ring).
    apply Qcopp_le_compat in Hv.
    replace (- 0) with 0 in Hv by ring. exact Hv. }
  split; [ exact Eu | ].
  rewrite Eu in H. rewrite <- H. ring.
Qed.

Lemma nonneg_sum (u v : BigFloat.t) : 0 <= u -> 0 <= v -> 0 <= u + v.
Proof.
  change BigFloat.t with Qc in *. intros Hu Hv. replace 0 with (0 + 0) by ring.
  apply Qcplus_le_compat; assumption.
Qed.

Lemma square_zero (a : BigFloat.t) : a * a = 0 -> a = 0.
Proof. intro H. destruct (Qcmult_integral _ _ H); assumption. Qed.

Lemma Complex_Quad_nonneg (x : Complex.t) : 0 <= Complex.Quad x.
Proof.
  destruct x as [a b]. unfold Complex.Quad. simpl. scalar_unfold.
  apply nonneg_sum; apply square_nonneg.
Qed.

Lemma Complex_Quad_zero_iff (x : Complex.t) :
  Complex.Quad x = 0 <-> x = Complex.new.
Proof.
  destruct x as [a b]. unfold Complex.Quad, Complex.new. simpl.
  scalar_unfold. split.
  - intro H.
    destruct (nonneg_sum_zero _ _ (square_nonneg a) (square_nonneg b) H)
      as [Ha Hb].
    apply square_zero in Ha. apply square_zero in Hb. subst. reflexivity.
  - intro H. injection H as -> ->. ring.
Qed.

Lemma Hamilton_Quad_nonneg (z : Hamilton.t) : 0 <= Hamilton.Quad z.
Proof.
  destruct z as [A B]. unfold Hamilton.Quad. simpl. scalar_unfold.
  apply nonneg_sum; apply Complex_Quad_nonneg.
Qed.

Lemma Hamilton_Quad_zero_iff (z : Hamilton.t) :
  Hamilton.Quad z = 0 <-> z = Hamilton.new.
Proof.
  destruct z as [A B]. unfold Hamilton.Quad, Hamilton.new. simpl.
  unfold BigFloat.Add. split.
  - intro H.
    destruct (nonneg_sum_zero _ _ (Complex_Quad_nonneg A)
                              (Complex_Quad_nonneg B) H) as [Ha Hb].
    apply Complex_Quad_zero_iff in Ha. apply Complex_Quad_zero_iff in Hb.
    subst. reflexivity.
  - intro H. injection H as -> ->. apply Qc_is_canon. reflexivity.
Qed.

(** C9.  The quadrance of Complex and of Hamilton is never negative, and
    it is zero only at the zero value. *)
Theorem Quad_positive_definite :
  (forall x : Complex.t,
      0 <= Complex.Quad x /\ (Complex.Quad x = 0 -> x = Complex.new))
  /\ (forall z : Hamilton.t,
      Hamilton.Quad z
      = BigFloat.Add (Complex.Quad (Hamilton.l z))
                     (Complex.Quad (Hamilton.r z))
      /\ 0 <= Hamilton.Quad z
      /\ (Hamilton.Quad z = 0 -> z = Hamilton.new)).
Proof.
  split.
  - intro x. split.
    + apply Complex_Quad_nonneg.
    + apply Complex_Quad_zero_iff.
  - intro z. split; [ reflexivity | split ].
    + apply Hamilton_Quad_nonneg.
    + apply Hamilton_Quad_zero_iff.
Qed.

(** ** Idempotents of Perplex *)

Lemma half_plus_half :
  BigFloat.half * BigFloat.half + BigFloat.half * BigFloat.half
  = BigFloat.half.
Proof. apply Qc_is_canon. reflexivity. Qed.

(** C10.  [Idempotent] returns (0.5, -0.5) when [sign < 0] and (0.5, 0.5)
    otherwise, also at [sign = 0]; the value it returns is its own square
    and is a zero divisor. *)
Theorem Perplex_Idempotent_spec (sign : Z) :
  Perplex.Idempotent sign
  = (if (sign <? 0)%Z
     then Perplex.mk BigFloat.half BigFloat.minus_half
     else Perplex.mk BigFloat.half BigFloat.half)
  /\ Perplex.Idempotent 0 = Perplex.mk BigFloat.half BigFloat.half
  /\ Perplex.Mul (Perplex.Idempotent sign) (Perplex.Idempotent sign)
     = Perplex.Idempotent sign
  /\ Perplex.IsZeroDiv (Perplex.Idempotent sign) = true.
Proof.
  split; [ reflexivity | split; [ reflexivity | ] ].
  unfold Perplex.Idempotent.
  destruct (sign <? 0)%Z; split; try reflexivity;
    unfold Perplex.Mul; simpl; f_equal; apply Qc_is_canon; reflexivity.
Qed.

(** ** Zero divisors *)

Lemma Perplex_IsZeroDiv_iff (a b : BigFloat.t) :
  Perplex.IsZeroDiv (Perplex.mk a b) = true <-> a = b \/ a = - b.
Proof.
  unfold Perplex.IsZeroDiv. simpl. unfold BigFloat.Neg.
  rewrite <- (Cmp_zero_iff a b), <- (Cmp_zero_iff a (- b)).
  destruct (Z.eqb (BigFloat.Cmp a b) 0),
           (Z.eqb (BigFloat.Cmp a (- b)) 0); intuition congruence.
Qed.

Lemma Infra_IsZeroDiv_iff (a b : BigFloat.t) :
  Infra.IsZeroDiv (Infra.mk a b) = true <-> a = 0.
Proof. unfold Infra.IsZeroDiv. simpl. apply Cmp_zero_iff. Qed.

Lemma Cockle_IsZeroDiv_iff (A B : Complex.t) :
  Cockle.IsZeroDiv (Cockle.mk A B) = true
  <-> Complex.Quad A = Complex.Quad B.
Proof. unfold Cockle.IsZeroDiv. simpl. apply Cmp_zero_iff. Qed.

Lemma Supra_IsZeroDiv_iff (A B : Infra.t) :
  Supra.IsZeroDiv (Supra.mk A B) = true <-> Infra.l A = 0.
Proof.
  unfold Supra.IsZeroDiv. simpl. destruct A as [a b].
  apply Infra_IsZeroDiv_iff.
Qed.

Lemma Complex_Quad_Mul (x y : Complex.t) :
  Complex.Quad (Complex.Mul x y)
  = BigFloat.Mul (Complex.Quad x) (Complex.Quad y).
Proof. rank1_ring. ring. Qed.

Lemma Hamilton_Quad_Mul (x y : Hamilton.t) :
  Hamilton.Quad (Hamilton.Mul x y)
  = BigFloat.Mul (Hamilton.Quad x) (Hamilton.Quad y).
Proof. rank2_ring. ring. Qed.



(** [IsZeroDiv] is the test [Quad = 0]. *)

Lemma difference_of_squares_zero (a b : BigFloat.t) :
  a * a - b * b = 0 <-> a = b \/ a = - b.
Proof.
  change BigFloat.t with Qc in *. split.
  - intro H.
    assert (F : (a - b) * (a + b) = 0) by (rewrite <- H; ring).
    destruct (Qcmult_integral _ _ F) as [E | E]; [ left | right ].
    + rewrite <- (Qcplus_0_l b), <- E. ring.
    + rewrite <- (Qcplus_0_l (- b)), <- E. ring.
  - intros [-> | ->]; ring.
Qed.

Lemma difference_zero (u v : BigFloat.t) : u - v = 0 <-> u = v.
Proof.
  change BigFloat.t with Qc in *. split.
  - intro H. rewrite <- (Qcplus_0_l v), <- H. ring.
  - intros ->. ring.
Qed.

Lemma Perplex_IsZeroDiv_Quad (x : Perplex.t) :
  Perplex.IsZeroDiv x = true <-> Perplex.Quad x = 0.
Proof.
  destruct x as [a b]. rewrite Perplex_IsZeroDiv_iff.
  unfold Perplex.Quad. simpl. scalar_unfold.
  symmetry. apply difference_of_squares_zero.
Qed.

Lemma Infra_IsZeroDiv_Quad (x : Infra.t) :
  Infra.IsZeroDiv x = true <-> Infra.Quad x = 0.
Proof.
  destruct x as [a b]. rewrite Infra_IsZeroDiv_iff.
  unfold Infra.Quad. simpl. scalar_unfold. split.
  - intros ->. ring.
  - apply square_zero.
Qed.

Lemma Cockle_IsZeroDiv_Quad (x : Cockle.t) :
  Cockle.IsZeroDiv x = true <-> Cockle.Quad x = 0.
Proof.
  destruct x as [A B]. rewrite Cockle_IsZeroDiv_iff.
  unfold Cockle.Quad. simpl. unfold BigFloat.Sub.
  symmetry. apply difference_zero.
Qed.

Lemma Supra_IsZeroDiv_Quad (x : Supra.t) :
  Supra.IsZeroDiv x = true <-> Supra.Quad x = 0.
Proof.
  destruct x as [A B]. unfold Supra.IsZeroDiv, Supra.Quad. simpl.
  apply Infra_IsZeroDiv_Quad.
Qed.

(** Multiplying a product by the conjugate of its left factor scales the
    right factor by the quadrance. *)





Lemma scaled_zero (u q : BigFloat.t) : u * q = 0 -> q <> 0 -> u = 0.
Proof.
  intros H Hq. destruct (Qcmult_integral _ _ H); [ assumption | contradiction ].
Qed.

Lemma one_nonzero : BigFloat.one <> 0.
Proof. intro H. apply (f_equal this) in H. discriminate H. Qed.



Lemma Complex_Scal_zero (y : Complex.t) (q : BigFloat.t) :
  Complex.Scal y q = Complex.new -> q <> 0 -> y = Complex.new.
Proof.
  destruct y as [c d]. intros H Hq.
  assert (C1 := f_equal Complex.l H). assert (C2 := f_equal Complex.r H).
  cbn [Complex.Scal Complex.new Complex.l Complex.r] in C1, C2.
  unfold Complex.new. f_equal; eapply scaled_zero; eassumption.
Qed.


Lemma Hamilton_Scal_zero (y : Hamilton.t) (q : BigFloat.t) :
  Hamilton.Scal y q = Hamilton.new -> q <> 0 -> y = Hamilton.new.
Proof.
  destruct y as [A B]. intros H Hq.
  assert (C1 := f_equal Hamilton.l H). assert (C2 := f_equal Hamilton.r H).
  cbn [Hamilton.Scal Hamilton.new Hamilton.l Hamilton.r] in C1, C2.
  unfold Hamilton.new. f_equal; eapply Complex_Scal_zero; eassumption.
Qed.











(** ** Inverses and quotients *)

Lemma Complex_guard_Quad (y : Complex.t) :
  Complex.Equals y Complex.new = false -> Complex.Quad y <> 0.
Proof.
  intros E H. apply Complex_Quad_zero_iff in H.
  apply Complex_Equals_iff in H. congruence.
Qed.

Lemma Hamilton_guard_Quad (y : Hamilton.t) :
  Hamilton.Equals y Hamilton.new = false -> Hamilton.Quad y <> 0.
Proof.
  intros E H. apply Hamilton_Quad_zero_iff in H.
  apply Hamilton_Equals_iff in H. congruence.
Qed.

Lemma Perplex_guard_Quad (y : Perplex.t) :
  Perplex.IsZeroDiv y = false -> Perplex.Quad y <> 0.
Proof. intros E H. apply Perplex_IsZeroDiv_Quad in H. congruence. Qed.

Lemma Infra_guard_Quad (y : Infra.t) :
  Infra.IsZeroDiv y = false -> Infra.Quad y <> 0.
Proof. intros E H. apply Infra_IsZeroDiv_Quad in H. congruence. Qed.

Lemma Cockle_guard_Quad (y : Cockle.t) :
  Cockle.IsZeroDiv y = false -> Cockle.Quad y <> 0.
Proof. intros E H. apply Cockle_IsZeroDiv_Quad in H. congruence. Qed.

Lemma Supra_guard_Quad (y : Supra.t) :
  Supra.IsZeroDiv y = false -> Supra.Quad y <> 0.
Proof. intros E H. apply Supra_IsZeroDiv_Quad in H. congruence. Qed.

(** Past the guard every scalar quotient has a value: the result is the
    numerator scaled by the inverse of the quadrance. *)

Lemma Complex_Inv_value (y : Complex.t) :
  Complex.Equals y Complex.new = false ->
  Complex.Inv y = Ok (Complex.Scal (Complex.Conj y) (/ Complex.Quad y)).
Proof.
  intro E. unfold Complex.Inv. rewrite E.
  cbv zeta. rewrite !(Quo_nonzero _ _ (Complex_guard_Quad y E)).
  reflexivity.
Qed.

Lemma Complex_Quo_value (x y : Complex.t) :
  Complex.Equals y Complex.new = false ->
  Complex.Quo x y
  = Ok (Complex.Scal (Complex.Mul x (Complex.Conj y)) (/ Complex.Quad y)).
Proof.
  intro E. unfold Complex.Quo. rewrite E.
  cbv zeta. rewrite !(Quo_nonzero _ _ (Complex_guard_Quad y E)).
  reflexivity.
Qed.

Lemma Perplex_Inv_value (y : Perplex.t) :
  Perplex.IsZeroDiv y = false ->
  Perplex.Inv y = Ok (Perplex.Scal (Perplex.Conj y) (/ Perplex.Quad y)).
Proof.
  intro E. unfold Perplex.Inv. rewrite E.
  cbv zeta. rewrite !(Quo_nonzero _ _ (Perplex_guard_Quad y E)).
  reflexivity.
Qed.

Lemma Perplex_Quo_value (x y : Perplex.t) :
  Perplex.IsZeroDiv y = false ->
  Perplex.Quo x y
  = Ok (Perplex.Scal (Perplex.Mul x (Perplex.Conj y)) (/ Perplex.Quad y)).
Proof.
  intro E. unfold Perplex.Quo. rewrite E.
  cbv zeta. rewrite !(Quo_nonzero _ _ (Perplex_guard_Quad y E)).
  reflexivity.
Qed.

Lemma Infra_Inv_value (y : Infra.t) :
  Infra.IsZeroDiv y = false ->
  Infra.Inv y = Ok (Infra.Scal (Infra.Conj y) (/ Infra.Quad y)).
Proof.
  intro E. unfold Infra.Inv. rewrite E.
  cbv zeta. rewrite !(Quo_nonzero _ _ (Infra_guard_Quad y E)).
  reflexivity.
Qed.

Lemma Infra_Quo_value (x y : Infra.t) :
  Infra.IsZeroDiv y = false ->
  Infra.Quo x y
  = Ok (Infra.Scal (Infra.Mul x (Infra.Conj y)) (/ Infra.Quad y)).
Proof.
  intro E. unfold Infra.Quo. rewrite E.
  cbv zeta. rewrite !(Quo_nonzero _ _ (Infra_guard_Quad y E)).
  reflexivity.
Qed.

Lemma Quo4_value (a b c d q : BigFloat.t) :
  q <> 0 -> Quo4 a b c d q = Ok (a * / q, b * / q, c * / q, d * / q).
Proof.
  intro H. unfold Quo4. rewrite !(Quo_nonzero _ _ H). reflexivity.
Qed.

Lemma Hamilton_div4_value (z : Hamilton.t) (q : BigFloat.t) :
  q <> 0 -> Hamilton.div4 z q = Ok (Hamilton.Scal z (/ q)).
Proof.
  intro H. destruct z as [[a b] [c d]]. unfold Hamilton.div4.
  cbn [Hamilton.l Hamilton.r Complex.l Complex.r].
  rewrite (Quo4_value _ _ _ _ _ H). reflexivity.
Qed.

Lemma Cockle_div4_value (z : Cockle.t) (q : BigFloat.t) :
  q <> 0 -> Cockle.div4 z q = Ok (Cockle.Scal z (/ q)).
Proof.
  intro H. destruct z as [[a b] [c d]]. unfold Cockle.div4.
  cbn [Cockle.l Cockle.r Complex.l Complex.r].
  rewrite (Quo4_value _ _ _ _ _ H). reflexivity.
Qed.

Lemma Supra_div4_value (z : Supra.t) (q : BigFloat.t) :
  q <> 0 -> Supra.div4 z q = Ok (Supra.Scal z (/ q)).
Proof.
  intro H. destruct z as [[a b] [c d]]. unfold Supra.div4.
  cbn [Supra.l Supra.r Infra.l Infra.r].
  rewrite (Quo4_value _ _ _ _ _ H). reflexivity.
Qed.

Lemma Hamilton_Inv_value (y : Hamilton.t) :
  Hamilton.Equals y Hamilton.new = false ->
  Hamilton.Inv y = Ok (Hamilton.Scal (Hamilton.Conj y) (/ Hamilton.Quad y)).
Proof.
  intro E. unfold Hamilton.Inv. rewrite E. cbv zeta.
  apply Hamilton_div4_value, Hamilton_guard_Quad, E.
Qed.

Lemma Hamilton_QuoL_value (x y : Hamilton.t) :
  Hamilton.Equals y Hamilton.new = false ->
  Hamilton.QuoL x y
  = Ok (Hamilton.Scal (Hamilton.Mul (Hamilton.Conj y) x)
                      (/ Hamilton.Quad y)).
Proof.
  intro E. unfold Hamilton.QuoL. rewrite E. cbv zeta.
  apply Hamilton_div4_value, Hamilton_guard_Quad, E.
Qed.

Lemma Hamilton_QuoR_value (x y : Hamilton.t) :
  Hamilton.Equals y Hamilton.new = false ->
  Hamilton.QuoR x y
  = Ok (Hamilton.Scal (Hamilton.Mul x (Hamilton.Conj y))
                      (/ Hamilton.Quad y)).
Proof.
  intro E. unfold Hamilton.QuoR. rewrite E. cbv zeta.
  apply Hamilton_div4_value, Hamilton_guard_Quad, E.
Qed.

Lemma Cockle_Inv_value (y : Cockle.t) :
  Cockle.IsZeroDiv y = false ->
  Cockle.Inv y = Ok (Cockle.Scal (Cockle.Conj y) (/ Cockle.Quad y)).
Proof.
  intro E. unfold Cockle.Inv. rewrite E. cbv zeta.
  apply Cockle_div4_value, Cockle_guard_Quad, E.
Qed.

Lemma Cockle_QuoL_value (x y : Cockle.t) :
  Cockle.IsZeroDiv y = false ->
  Cockle.QuoL x y
  = Ok (Cockle.Scal (Cockle.Mul (Cockle.Conj y) x) (/ Cockle.Quad y)).
Proof.
  intro E. unfold Cockle.QuoL. rewrite E. cbv zeta.
  apply Cockle_div4_value, Cockle_guard_Quad, E.
Qed.

Lemma Cockle_QuoR_value (x y : Cockle.t) :
  Cockle.IsZeroDiv y = false ->
  Cockle.QuoR x y
  = Ok (Cockle.Scal (Cockle.Mul x (Cockle.Conj y)) (/ Cockle.Quad y)).
Proof.
  intro E. unfold Cockle.QuoR. rewrite E. cbv zeta.
  apply Cockle_div4_value, Cockle_guard_Quad, E.
Qed.

Lemma Supra_Inv_value (y : Supra.t) :
  Supra.IsZeroDiv y = false ->
  Supra.Inv y = Ok (Supra.Scal (Supra.Conj y) (/ Supra.Quad y)).
Proof.
  intro E. unfold Supra.Inv. rewrite E. cbv zeta.
  apply Supra_div4_value, Supra_guard_Quad, E.
Qed.

Lemma Supra_QuoL_value (x y : Supra.t) :
  Supra.IsZeroDiv y = false ->
  Supra.QuoL x y
  = Ok (Supra.Scal (Supra.Mul (Supra.Conj y) x) (/ Supra.Quad y)).
Proof.
  intro E. unfold Supra.QuoL. rewrite E. cbv zeta.
  apply Supra_div4_value, Supra_guard_Quad, E.
Qed.

Lemma Supra_QuoR_value (x y : Supra.t) :
  Supra.IsZeroDiv y = false ->
  Supra.QuoR x y
  = Ok (Supra.Scal (Supra.Mul x (Supra.Conj y)) (/ Supra.Quad y)).
Proof.
  intro E. unfold Supra.QuoR. rewrite E. cbv zeta.
  apply Supra_div4_value, Supra_guard_Quad, E.
Qed.

(** Failure and success of a guarded call. *)

Lemma guarded_outcome {A : Type} (g : bool) (msg : string) (k : DomainError)
      (o : outcome A) (v : A) :
  kind_of_panic msg = Some k ->
  (g = true -> o = Panic msg) ->
  (g = false -> o = Ok v) ->
  (fails_with o k <-> g = true) /\ (returns o <-> g = false)
  /\ o <> NoQuotient.
Proof.
  intros Hk Ht Hf. destruct g.
  - rewrite (Ht eq_refl). repeat split; try congruence.
    + intros _. exists msg. split; [ reflexivity | exact Hk ].
    + intros [a Ha]. discriminate Ha.
  - rewrite (Hf eq_refl). repeat split; try congruence.
    + intros [m [Hm _]]. discriminate Hm.
    + intros _. exists v. reflexivity.
Qed.

Lemma guarded_fails_exactly {A : Type} (g : bool) (msg : string)
      (k : DomainError) (o : outcome A) (v : A) (P : Prop) :
  kind_of_panic msg = Some k ->
  (g = true <-> P) ->
  (g = true -> o = Panic msg) ->
  (g = false -> o = Ok v) ->
  fails_exactly_when o k P.
Proof.
  intros Hk HP Ht Hf.
  destruct (guarded_outcome g msg k o v Hk Ht Hf) as [F [R _]].
  split.
  - rewrite F. exact HP.
  - rewrite R, <- HP. destruct g; split; congruence.
Qed.

Ltac guarded_call msg value_lemma :=
  eapply (guarded_fails_exactly _ msg);
  [ reflexivity
  | try reflexivity
  | let G := fresh in
    intro G;
    cbv [Complex.Inv Complex.Quo Perplex.Inv Perplex.Quo Infra.Inv Infra.Quo
         Hamilton.Inv Hamilton.QuoL Hamilton.QuoR
         Cockle.Inv Cockle.QuoL Cockle.QuoR
         Supra.Inv Supra.QuoL Supra.QuoR];
    rewrite G; reflexivity
  | apply value_lemma ].

(** C4.  Inversion and quotients fail exactly on a divisor that is not
    invertible, and return a value otherwise: Complex [Inv], [Quo] and
    Hamilton [Inv], [QuoL], [QuoR] fail with DivideByZero exactly at the
    zero value; Perplex, Infra, Cockle and Supra fail with ZeroDivisor
    exactly when [IsZeroDiv] holds of the divisor.  The scalar quotient is
    never taken at a zero divisor.  (The other operations are total
    functions of the embedding.) *)
Theorem Inv_Quo_fail_exactly_on_noninvertible :
  (forall y, fails_exactly_when (Complex.Inv y) DivideByZero
                                (y = Complex.new))
  /\ (forall x y, fails_exactly_when (Complex.Quo x y) DivideByZero
                                     (y = Complex.new))
  /\ (forall y, fails_exactly_when (Hamilton.Inv y) DivideByZero
                                   (y = Hamilton.new))
  /\ (forall x y, fails_exactly_when (Hamilton.QuoL x y) DivideByZero
                                     (y = Hamilton.new))
  /\ (forall x y, fails_exactly_when (Hamilton.QuoR x y) DivideByZero
                                     (y = Hamilton.new))
  /\ (forall y, fails_exactly_when (Perplex.Inv y) ZeroDivisor
                                   (Perplex.IsZeroDiv y = true))
  /\ (forall x y, fails_exactly_when (Perplex.Quo x y) ZeroDivisor
                                     (Perplex.IsZeroDiv y = true))
  /\ (forall y, fails_exactly_when (Infra.Inv y) ZeroDivisor
                                   (Infra.IsZeroDiv y = true))
  /\ (forall x y, fails_exactly_when (Infra.Quo x y) ZeroDivisor
                                     (Infra.IsZeroDiv y = true))
  /\ (forall y, fails_exactly_when (Cockle.Inv y) ZeroDivisor
                                   (Cockle.IsZeroDiv y = true))
  /\ (forall x y, fails_exactly_when (Cockle.QuoL x y) ZeroDivisor
                                     (Cockle.IsZeroDiv y = true))
  /\ (forall x y, fails_exactly_when (Cockle.QuoR x y) ZeroDivisor
                                     (Cockle.IsZeroDiv y = true))
  /\ (forall y, fails_exactly_when (Supra.Inv y) ZeroDivisor
                                   (Supra.IsZeroDiv y = true))
  /\ (forall x y, fails_exactly_when (Supra.QuoL x y) ZeroDivisor
                                     (Supra.IsZeroDiv y = true))
  /\ (forall x y, fails_exactly_when (Supra.QuoR x y) ZeroDivisor
                                     (Supra.IsZeroDiv y = true)).
Proof.
  repeat match goal with |- _ /\ _ => split end; intros.
  - guarded_call "zero inverse"%string Complex_Inv_value.
    apply Complex_Equals_iff.
  - guarded_call "zero denominator"%string Complex_Quo_value.
    apply Complex_Equals_iff.
  - guarded_call "inverse of zero"%string Hamilton_Inv_value.
    apply Hamilton_Equals_iff.
  - guarded_call "left denominator is zero"%string Hamilton_QuoL_value.
    apply Hamilton_Equals_iff.
  - guarded_call "right denominator is zero"%string Hamilton_QuoR_value.
    apply Hamilton_Equals_iff.
  - guarded_call "zero divisor inverse"%string Perplex_Inv_value.
  - guarded_call "zero divisor denominator"%string Perplex_Quo_value.
  - guarded_call "zero divisor inverse"%string Infra_Inv_value.
  - guarded_call "zero divisor denominator"%string Infra_Quo_value.
  - guarded_call "inverse of zero divisor"%string Cockle_Inv_value.
  - guarded_call "denominator is zero divisor"%string Cockle_QuoL_value.
  - guarded_call "denominator is zero divisor"%string Cockle_QuoR_value.
  - guarded_call "inverse of zero divisor"%string Supra_Inv_value.
  - guarded_call "denominator is zero divisor"%string Supra_QuoL_value.
  - guarded_call "denominator is zero divisor"%string Supra_QuoR_value.
Qed.

(** ** Quotients are products with the inverse *)

Lemma Ok_inj {A : Type} (a b : A) : Ok a = Ok b -> a = b.
Proof. intro H. injection H as H. exact H. Qed.

Lemma Complex_invertible (y yi : Complex.t) :
  Complex.Inv y = Ok yi ->
  Complex.Equals y Complex.new = false
  /\ yi = Complex.Scal (Complex.Conj y) (/ Complex.Quad y).
Proof.
  intro H. destruct (Complex.Equals y Complex.new) eqn:E.
  - unfold Complex.Inv in H. rewrite E in H. discriminate H.
  - rewrite (Complex_Inv_value y E) in H. apply Ok_inj in H. auto.
Qed.

Lemma Perplex_invertible (y yi : Perplex.t) :
  Perplex.Inv y = Ok yi ->
  Perplex.IsZeroDiv y = false
  /\ yi = Perplex.Scal (Perplex.Conj y) (/ Perplex.Quad y).
Proof.
  intro H. destruct (Perplex.IsZeroDiv y) eqn:E.
  - unfold Perplex.Inv in H. rewrite E in H. discriminate H.
  - rewrite (Perplex_Inv_value y E) in H. apply Ok_inj in H. auto.
Qed.

Lemma Infra_invertible (y yi : Infra.t) :
  Infra.Inv y = Ok yi ->
  Infra.IsZeroDiv y = false
  /\ yi = Infra.Scal (Infra.Conj y) (/ Infra.Quad y).
Proof.
  intro H. destruct (Infra.IsZeroDiv y) eqn:E.
  - unfold Infra.Inv in H. rewrite E in H. discriminate H.
  - rewrite (Infra_Inv_value y E) in H. apply Ok_inj in H. auto.
Qed.

Lemma Hamilton_invertible (y yi : Hamilton.t) :
  Hamilton.Inv y = Ok yi ->
  Hamilton.Equals y Hamilton.new = false
  /\ yi = Hamilton.Scal (Hamilton.Conj y) (/ Hamilton.Quad y).
Proof.
  intro H. destruct (Hamilton.Equals y Hamilton.new) eqn:E.
  - unfold Hamilton.Inv in H. rewrite E in H. discriminate H.
  - rewrite (Hamilton_Inv_value y E) in H. apply Ok_inj in H. auto.
Qed.

Lemma Cockle_invertible (y yi : Cockle.t) :
  Cockle.Inv y = Ok yi ->
  Cockle.IsZeroDiv y = false
  /\ yi = Cockle.Scal (Cockle.Conj y) (/ Cockle.Quad y).
Proof.
  intro H. destruct (Cockle.IsZeroDiv y) eqn:E.
  - unfold Cockle.Inv in H. rewrite E in H. discriminate H.
  - rewrite (Cockle_Inv_value y E) in H. apply Ok_inj in H. auto.
Qed.

Lemma Supra_invertible (y yi : Supra.t) :
  Supra.Inv y = Ok yi ->
  Supra.IsZeroDiv y = false
  /\ yi = Supra.Scal (Supra.Conj y) (/ Supra.Quad y).
Proof.
  intro H. destruct (Supra.IsZeroDiv y) eqn:E.
  - unfold Supra.Inv in H. rewrite E in H. discriminate H.
  - rewrite (Supra_Inv_value y E) in H. apply Ok_inj in H. auto.
Qed.

(** Scaling commutes with either factor of a product. *)

Lemma Complex_Mul_Scal (x c : Complex.t) (k : BigFloat.t) :
  Complex.Scal (Complex.Mul x c) k = Complex.Mul x (Complex.Scal c k).
Proof. rank1_ring. Qed.

Lemma Perplex_Mul_Scal (x c : Perplex.t) (k : BigFloat.t) :
  Perplex.Scal (Perplex.Mul x c) k = Perplex.Mul x (Perplex.Scal c k).
Proof. rank1_ring. Qed.

Lemma Infra_Mul_Scal (x c : Infra.t) (k : BigFloat.t) :
  Infra.Scal (Infra.Mul x c) k = Infra.Mul x (Infra.Scal c k).
Proof. rank1_ring. Qed.

Lemma Hamilton_Mul_Scal_r (x c : Hamilton.t) (k : BigFloat.t) :
  Hamilton.Scal (Hamilton.Mul x c) k = Hamilton.Mul x (Hamilton.Scal c k).
Proof. rank2_ring. Qed.

Lemma Hamilton_Mul_Scal_l (x c : Hamilton.t) (k : BigFloat.t) :
  Hamilton.Scal (Hamilton.Mul c x) k = Hamilton.Mul (Hamilton.Scal c k) x.
Proof. rank2_ring. Qed.

Lemma Cockle_Mul_Scal_r (x c : Cockle.t) (k : BigFloat.t) :
  Cockle.Scal (Cockle.Mul x c) k = Cockle.Mul x (Cockle.Scal c k).
Proof. rank2_ring. Qed.

Lemma Cockle_Mul_Scal_l (x c : Cockle.t) (k : BigFloat.t) :
  Cockle.Scal (Cockle.Mul c x) k = Cockle.Mul (Cockle.Scal c k) x.
Proof. rank2_ring. Qed.

Lemma Supra_Mul_Scal_r (x c : Supra.t) (k : BigFloat.t) :
  Supra.Scal (Supra.Mul x c) k = Supra.Mul x (Supra.Scal c k).
Proof. rank2_ring. Qed.

Lemma Supra_Mul_Scal_l (x c : Supra.t) (k : BigFloat.t) :
  Supra.Scal (Supra.Mul c x) k = Supra.Mul (Supra.Scal c k) x.
Proof. rank2_ring. Qed.

Lemma Complex_Quo_Mul_Inv (x y yi : Complex.t) :
  Complex.Inv y = Ok yi -> Complex.Quo x y = Ok (Complex.Mul x yi).
Proof.
  intro H. destruct (Complex_invertible y yi H) as [E ->].
  rewrite (Complex_Quo_value x y E), Complex_Mul_Scal. reflexivity.
Qed.

Lemma Perplex_Quo_Mul_Inv (x y yi : Perplex.t) :
  Perplex.Inv y = Ok yi -> Perplex.Quo x y = Ok (Perplex.Mul x yi).
Proof.
  intro H. destruct (Perplex_invertible y yi H) as [E ->].
  rewrite (Perplex_Quo_value x y E), Perplex_Mul_Scal. reflexivity.
Qed.

Lemma Infra_Quo_Mul_Inv (x y yi : Infra.t) :
  Infra.Inv y = Ok yi -> Infra.Quo x y = Ok (Infra.Mul x yi).
Proof.
  intro H. destruct (Infra_invertible y yi H) as [E ->].
  rewrite (Infra_Quo_value x y E), Infra_Mul_Scal. reflexivity.
Qed.

Lemma Hamilton_Quo_Mul_Inv (x y yi : Hamilton.t) :
  Hamilton.Inv y = Ok yi ->
  Hamilton.QuoL x y = Ok (Hamilton.Mul yi x)
  /\ Hamilton.QuoR x y = Ok (Hamilton.Mul x yi).
Proof.
  intro H. destruct (Hamilton_invertible y yi H) as [E ->].
  rewrite (Hamilton_QuoL_value x y E), (Hamilton_QuoR_value x y E),
          Hamilton_Mul_Scal_l, Hamilton_Mul_Scal_r.
  split; reflexivity.
Qed.

Lemma Cockle_Quo_Mul_Inv (x y yi : Cockle.t) :
  Cockle.Inv y = Ok yi ->
  Cockle.QuoL x y = Ok (Cockle.Mul yi x)
  /\ Cockle.QuoR x y = Ok (Cockle.Mul x yi).
Proof.
  intro H. destruct (Cockle_invertible y yi H) as [E ->].
  rewrite (Cockle_QuoL_value x y E), (Cockle_QuoR_value x y E),
          Cockle_Mul_Scal_l, Cockle_Mul_Scal_r.
  split; reflexivity.
Qed.

Lemma Supra_Quo_Mul_Inv (x y yi : Supra.t) :
  Supra.Inv y = Ok yi ->
  Supra.QuoL x y = Ok (Supra.Mul yi x)
  /\ Supra.QuoR x y = Ok (Supra.Mul x yi).
Proof.
  intro H. destruct (Supra_invertible y yi H) as [E ->].
  rewrite (Supra_QuoL_value x y E), (Supra_QuoR_value x y E),
          Supra_Mul_Scal_l, Supra_Mul_Scal_r.
  split; reflexivity.
Qed.






(** ** Bounded nilpotency test of Cockle *)

Lemma partial_power_shift (p x : Cockle.t) (i : nat) :
  partial_power (Cockle.Mul p x) x i = partial_power p x (S i).
Proof.
  induction i as [ | i IH ]; simpl.
  - reflexivity.
  - rewrite IH. reflexivity.
Qed.

Lemma nilpotent_loop_spec (k : nat) :
  forall p x,
    Cockle.nilpotent_loop k p x = true
    <-> exists i, (1 <= i <= k)%nat /\ partial_power p x i = Cockle.new.
Proof.
  induction k as [ | k IH ]; intros p x; cbn [Cockle.nilpotent_loop].
  - split; [ discriminate | ]. intros [i [Hi _]]. lia.
  - destruct (Cockle.Equals (Cockle.Mul p x) Cockle.new) eqn:E.
    + split; [ | reflexivity ]. intros _. exists 1%nat. split; [ lia | ].
      cbn [partial_power]. apply Cockle_Equals_iff. exact E.
    + rewrite IH. split.
      * intros [i [Hi H]]. exists (S i). split; [ lia | ].
        rewrite <- partial_power_shift. exact H.
      * intros [i [Hi H]]. destruct i as [ | i ]; [ lia | ].
        destruct i as [ | i ].
        -- cbn [partial_power] in H. apply Cockle_Equals_iff in H.
           congruence.
        -- exists (S i). split; [ lia | ].
           rewrite partial_power_shift. exact H.
Qed.

(** C6, as the code has it.  [IsNilpotent(x, n)] is true iff x is the zero
    value or some partial power p_i with 1 <= i <= n is the zero value;
    with n <= 0 no step is taken and the result is true exactly at x = 0. *)
Theorem Cockle_IsNilpotent_spec (x : Cockle.t) (n : Z) :
  (Cockle.IsNilpotent x n = true
   <-> x = Cockle.new
       \/ exists i, (1 <= i)%nat /\ (Z.of_nat i <= n)%Z
                    /\ partial_power Cockle_one x i = Cockle.new)
  /\ ((n <= 0)%Z -> (Cockle.IsNilpotent x n = true <-> x = Cockle.new)).
Proof.
  assert (M : Cockle.IsNilpotent x n = true
              <-> x = Cockle.new
                  \/ exists i, (1 <= i)%nat /\ (Z.of_nat i <= n)%Z
                      /\ partial_power Cockle_one x i = Cockle.new).
  { unfold Cockle.IsNilpotent.
    destruct (Cockle.Equals x Cockle.new) eqn:E.
    - apply Cockle_Equals_iff in E. tauto.
    - fold Cockle_one. rewrite nilpotent_loop_spec. split.
      + intros [i [Hi H]]. right. exists i. repeat split; [ lia | lia | exact H ].
      + intros [H | [i [H1 [H2 H]]]].
        * apply Cockle_Equals_iff in H. congruence.
        * exists i. split; [ lia | exact H ]. }
  split; [ exact M | ].
  intro Hn. rewrite M. split; [ | tauto ].
  intros [H | [i [H1 [H2 _]]]]; [ exact H | lia ].
Qed.

Lemma Cockle_IsNilpotent_spec_witness :
  (0 <= 0)%Z
  /\ (Cockle.IsNilpotent (cockleZ 1 0 1 0) 0 = true
      <-> cockleZ 1 0 1 0 = Cockle.new).
Proof.
  split; [ lia | ].
  apply (proj2 (Cockle_IsNilpotent_spec (cockleZ 1 0 1 0) 0)). lia.
Defined.

(** C6 as stated fails at x = 0, n = 0: the test answers true although no
    partial power p_i with 1 <= i <= 0 exists. *)
Lemma Cockle_IsNilpotent_zero_counterexample :
  Cockle.IsNilpotent Cockle.new 0 = true
  /\ ~ (exists i, (1 <= i)%nat /\ (Z.of_nat i <= 0)%Z
                  /\ partial_power Cockle_one Cockle.new i = Cockle.new)
  /\ ~ (Cockle.IsNilpotent Cockle.new 0 = true
        <-> exists i, (1 <= i)%nat /\ (Z.of_nat i <= 0)%Z
                      /\ partial_power Cockle_one Cockle.new i = Cockle.new).
Proof.
  split; [ reflexivity | ]. split.
  - intros [i [H1 [H2 _]]]. lia.
  - intros [H _]. destruct (H eq_refl) as [i [H1 [H2 _]]]. lia.
Qed.

(** * The methods on pointers: receivers that alias operands *)

(** ** Reading the store *)

Lemma cell_upd_same (s : store) (p : addr) (v : BigFloat.t) :
  cell (upd s p v) p = v.
Proof. unfold upd. simpl. rewrite Nat.eqb_refl. reflexivity. Qed.

Lemma cell_upd_other (s : store) (p : addr) (v : BigFloat.t) (q : addr) :
  q <> p -> cell (upd s p v) q = cell s q.
Proof.
  intro H. unfold upd. simpl. apply Nat.eqb_neq in H. rewrite H.
  reflexivity.
Qed.

Lemma next_upd (s : store) (p : addr) (v : BigFloat.t) :
  next (upd s p v) = next s.
Proof. reflexivity. Qed.

Lemma cell_grow_old (s : store) (n : nat) (q : addr) :
  (q < next s)%nat -> cell (grow s n) q = cell s q.
Proof.
  intro H. unfold grow. simpl. apply Nat.leb_gt in H. rewrite H.
  reflexivity.
Qed.

Lemma cell_grow_new (s : store) (n : nat) (q : addr) :
  (next s <= q)%nat -> cell (grow s n) q = BigFloat.new.
Proof.
  intro H. unfold grow. simpl. apply Nat.leb_le in H. rewrite H.
  reflexivity.
Qed.

Lemma next_grow (s : store) (n : nat) : next (grow s n) = (next s + n)%nat.
Proof. reflexivity. Qed.

(** ** Running one step *)

Lemma bind_read {B : Type} (p : addr) (k : BigFloat.t -> M B) (s : store) :
  mbind (read p) k s = k (cell s p) s.
Proof. reflexivity. Qed.

Lemma bind_write {B : Type} (p : addr) (v : BigFloat.t) (k : unit -> M B)
      (s : store) :
  mbind (write p v) k s = k tt (upd s p v).
Proof. reflexivity. Qed.

Lemma bind_alloc {B : Type} (n : nat) (k : addr -> M B) (s : store) :
  mbind (alloc n) k s = k (next s) (grow s n).
Proof. reflexivity. Qed.

Lemma bind_ret {A B : Type} (a : A) (k : A -> M B) (s : store) :
  mbind (ret a) k s = k a s.
Proof. reflexivity. Qed.

Lemma bind_bind {A B C : Type} (m : M A) (f : A -> M B) (k : B -> M C)
      (s : store) :
  mbind (mbind m f) k s = mbind m (fun a => mbind (f a) k) s.
Proof. unfold mbind. destruct (m s) as [[a s'] | | ]; reflexivity. Qed.

Lemma bind_Ok {A B : Type} (m : M A) (k : A -> M B) (s s' : store) (a : A) :
  m s = Ok (a, s') -> mbind m k s = k a s'.
Proof. intro H. unfold mbind. rewrite H. reflexivity. Qed.

#[global] Opaque upd grow.

Ltac nexts :=
  repeat first
    [ rewrite next_upd
    | rewrite next_grow
    | match goal with
      | H : next ?t = _ |- context [next ?t] => is_var t; rewrite H
      end ].

Ltac side := nexts; lia.

Ltac cells :=
  repeat first
    [ rewrite next_upd
    | rewrite next_grow
    | rewrite cell_upd_same
    | rewrite cell_upd_other by side
    | rewrite cell_grow_old by side
    | rewrite cell_grow_new by side
    | match goal with
      | H : agree _ ?t _ |- context [cell ?t ?p] =>
          is_var t; rewrite (H p) by side
      end ].

Ltac step :=
  first [ rewrite bind_bind
        | rewrite bind_ret
        | rewrite bind_alloc
        | rewrite bind_write
        | rewrite bind_read; cells ];
  cbv beta.

Ltac float_methods :=
  unfold FloatPtr.new, FloatPtr.Copy, FloatPtr.Neg, FloatPtr.Add,
         FloatPtr.Sub, FloatPtr.Mul, FloatPtr.Cmp,
         ComplexPtr.l, ComplexPtr.r in *.

(** ** complex.go on pointers: what each method writes *)

Lemma writes_elim m s z v :
  writes m s z v ->
  exists s', m s = Ok (z, s') /\ (next s <= next s')%nat
             /\ agree (next s) s' (upd2 s z v).
Proof.
  unfold writes. destruct (m s) as [[p s'] | | ]; try contradiction.
  intros [-> [H1 H2]]. exists s'. auto.
Qed.

Ltac run := float_methods; repeat step; unfold ret.

Lemma ComplexPtr_Mul_writes s z x y :
  (z + 1 < next s)%nat -> (x + 1 < next s)%nat -> (y + 1 < next s)%nat ->
  writes (ComplexPtr.Mul z x y) s z (Complex.Mul (ComplexPtr.load s x) (ComplexPtr.load s y)).
Proof.
  intros Hz Hx Hy. unfold writes, ComplexPtr.Mul. run.
  split; [ reflexivity | split; [ side | ] ].
  intros p Hp. unfold upd2, ComplexPtr.load, ComplexPtr.l, ComplexPtr.r. simpl.
  destruct (Nat.eq_dec p (z + 1)) as [-> | N1]; [ cells; reflexivity | ].
  destruct (Nat.eq_dec p z) as [-> | N2]; [ cells; reflexivity | ].
  cells. reflexivity.
Qed.

Ltac frame z :=
  split; [ reflexivity | split; [ side | ] ];
  let p := fresh "p" in let Hp := fresh "Hp" in
  intros p Hp;
  unfold upd2, ComplexPtr.load, ComplexPtr.l, ComplexPtr.r; simpl;
  destruct (Nat.eq_dec p (z + 1)) as [-> | ?]; [ cells; reflexivity | ];
  destruct (Nat.eq_dec p z) as [-> | ?]; [ cells; reflexivity | ];
  cells; reflexivity.

Lemma ComplexPtr_Copy_writes s z y :
  (z + 1 < next s)%nat -> (y + 1 < next s)%nat -> objs z y ->
  writes (ComplexPtr.Copy z y) s z (ComplexPtr.load s y).
Proof.
  intros Hz Hy [-> | D]; unfold writes, ComplexPtr.Copy; run; frame z || frame y.
Qed.

Lemma ComplexPtr_Neg_writes s z y :
  (z + 1 < next s)%nat -> (y + 1 < next s)%nat -> objs z y ->
  writes (ComplexPtr.Neg z y) s z (Complex.Neg (ComplexPtr.load s y)).
Proof.
  intros Hz Hy [-> | D]; unfold writes, ComplexPtr.Neg; run; frame z || frame y.
Qed.

Lemma ComplexPtr_Conj_writes s z y :
  (z + 1 < next s)%nat -> (y + 1 < next s)%nat -> objs z y ->
  writes (ComplexPtr.Conj z y) s z (Complex.Conj (ComplexPtr.load s y)).
Proof.
  intros Hz Hy [-> | D]; unfold writes, ComplexPtr.Conj; run; frame z || frame y.
Qed.

Lemma ComplexPtr_Add_writes s z x y :
  (z + 1 < next s)%nat -> (x + 1 < next s)%nat -> (y + 1 < next s)%nat ->
  objs z x -> objs z y ->
  writes (ComplexPtr.Add z x y) s z
         (Complex.Add (ComplexPtr.load s x) (ComplexPtr.load s y)).
Proof.
  intros Hz Hx Hy [-> | Dx] [E | Dy]; try subst y; unfold writes, ComplexPtr.Add; run;
    first [ frame z | frame x | frame y ].
Qed.

Lemma ComplexPtr_Sub_writes s z x y :
  (z + 1 < next s)%nat -> (x + 1 < next s)%nat -> (y + 1 < next s)%nat ->
  objs z x -> objs z y ->
  writes (ComplexPtr.Sub z x y) s z
         (Complex.Sub (ComplexPtr.load s x) (ComplexPtr.load s y)).
Proof.
  intros Hz Hx Hy [-> | Dx] [E | Dy]; try subst y; unfold writes, ComplexPtr.Sub; run;
    first [ frame z | frame x | frame y ].
Qed.

Lemma ComplexPtr_Equals_run s z y :
  ComplexPtr.Equals z y s
  = Ok (Complex.Equals (ComplexPtr.load s z) (ComplexPtr.load s y), s).
Proof.
  unfold ComplexPtr.Equals. run.
  unfold Complex.Equals, ComplexPtr.load, differ, ComplexPtr.l, ComplexPtr.r. simpl.
  destruct (_ || _); reflexivity.
Qed.

Lemma ComplexPtr_Quad_run s y :
  (y + 1 < next s)%nat ->
  exists s', ComplexPtr.Quad y s = Ok (next s, s')
             /\ next s' = (next s + 2)%nat
             /\ cell s' (next s) = Complex.Quad (ComplexPtr.load s y)
             /\ agree (next s) s' s.
Proof.
  intro Hy. unfold ComplexPtr.Quad. run.
  eexists. split; [ reflexivity | ]. split; [ side | ].
  split; [ cells; reflexivity | ].
  intros p Hp. cells. reflexivity.
Qed.

Lemma ComplexPtr_load_grow s n y : (y + 1 < next s)%nat ->
  ComplexPtr.load (grow s n) y = ComplexPtr.load s y.
Proof. intro H. unfold ComplexPtr.load, ComplexPtr.l, ComplexPtr.r. cells. reflexivity. Qed.

Lemma ComplexPtr_load_fresh s n : (2 <= n)%nat ->
  ComplexPtr.load (grow s n) (next s) = Complex.new.
Proof. intro H. unfold ComplexPtr.load, ComplexPtr.l, ComplexPtr.r. cells. reflexivity. Qed.

Lemma FloatPtr_Quo_run {B} z x y (k : addr -> M B) s :
  cell s y <> 0 ->
  mbind (FloatPtr.Quo z x y) k s = k z (upd s z (cell s x / cell s y)).
Proof.
  intro H. unfold FloatPtr.Quo. repeat step.
  rewrite (Quo_nonzero _ _ H). repeat step. reflexivity.
Qed.

Lemma ComplexPtr_Inv_panics s z y :
  (y + 1 < next s)%nat ->
  Complex.Equals (ComplexPtr.load s y) Complex.new = true ->
  ComplexPtr.Inv z y s = Panic "zero inverse".
Proof.
  intros Hy E. unfold ComplexPtr.Inv, ComplexPtr.new.
  rewrite bind_alloc. cbv beta.
  rewrite (bind_Ok _ _ _ _ _ (ComplexPtr_Equals_run _ _ _)).
  rewrite ComplexPtr_load_grow by lia. rewrite ComplexPtr_load_fresh by lia. rewrite E. reflexivity.
Qed.

Lemma ComplexPtr_Inv_writes s z y :
  (z + 1 < next s)%nat -> (y + 1 < next s)%nat -> objs z y ->
  Complex.Equals (ComplexPtr.load s y) Complex.new = false ->
  writes (ComplexPtr.Inv z y) s z
         (Complex.Scal (Complex.Conj (ComplexPtr.load s y))
                       (/ Complex.Quad (ComplexPtr.load s y))).
Proof.
  intros Hz Hy O E. assert (Q := Complex_guard_Quad _ E).
  unfold writes, ComplexPtr.Inv, ComplexPtr.new.
  rewrite bind_alloc. cbv beta.
  rewrite (bind_Ok _ _ _ _ _ (ComplexPtr_Equals_run _ _ _)).
  rewrite ComplexPtr_load_grow by lia. rewrite ComplexPtr_load_fresh by lia. rewrite E.
  destruct (ComplexPtr_Quad_run (grow s 2) y ltac:(side)) as (s1 & R1 & N1 & C1 & A1).
  rewrite (bind_Ok _ _ _ _ _ R1).
  rewrite ComplexPtr_load_grow in C1 by lia. rewrite next_grow in *.
  unfold ComplexPtr.Conj. float_methods.
  destruct O as [-> | D].
  - repeat step.
    rewrite FloatPtr_Quo_run by (cells; rewrite C1; exact Q). cells.
    rewrite FloatPtr_Quo_run by (cells; rewrite C1; exact Q). cells.
    rewrite C1. unfold ret. frame y.
  - repeat step.
    rewrite FloatPtr_Quo_run by (cells; rewrite C1; exact Q). cells.
    rewrite FloatPtr_Quo_run by (cells; rewrite C1; exact Q). cells.
    rewrite C1. unfold ret. frame z.
Qed.

Lemma ComplexPtr_Quo_panics s z x y :
  (y + 1 < next s)%nat ->
  Complex.Equals (ComplexPtr.load s y) Complex.new = true ->
  ComplexPtr.Quo z x y s = Panic "zero denominator".
Proof.
  intros Hy E. unfold ComplexPtr.Quo, ComplexPtr.new.
  rewrite bind_alloc. cbv beta.
  rewrite (bind_Ok _ _ _ _ _ (ComplexPtr_Equals_run _ _ _)).
  rewrite ComplexPtr_load_grow by lia. rewrite ComplexPtr_load_fresh by lia. rewrite E. reflexivity.
Qed.

Ltac quo_prefix s y E R1 N1 C1 A1 :=
  unfold writes, ComplexPtr.Quo, ComplexPtr.new;
  rewrite bind_alloc; cbv beta;
  rewrite (bind_Ok _ _ _ _ _ (ComplexPtr_Equals_run _ _ _));
  rewrite ComplexPtr_load_grow by lia; rewrite ComplexPtr_load_fresh by lia; rewrite E;
  let s1 := fresh "s1" in
  destruct (ComplexPtr_Quad_run (grow s 2) y ltac:(side)) as (s1 & R1 & N1 & C1 & A1);
  rewrite (bind_Ok _ _ _ _ _ R1);
  rewrite ComplexPtr_load_grow in C1 by lia; rewrite next_grow in *;
  unfold ComplexPtr.Conj, ComplexPtr.Mul; float_methods.

Ltac quo_steps C1 Q :=
  repeat step;
  rewrite FloatPtr_Quo_run by (cells; rewrite C1; exact Q); cells;
  rewrite FloatPtr_Quo_run by (cells; rewrite C1; exact Q); cells;
  rewrite C1; unfold ret.

(** Receiver distinct from [x] (it may be [y]). *)
Lemma ComplexPtr_Quo_writes s z x y :
  (z + 1 < next s)%nat -> (x + 1 < next s)%nat -> (y + 1 < next s)%nat ->
  objs z y -> ((z + 1 < x)%nat \/ (x + 1 < z)%nat) ->
  Complex.Equals (ComplexPtr.load s y) Complex.new = false ->
  writes (ComplexPtr.Quo z x y) s z
         (Complex.Scal (Complex.Mul (ComplexPtr.load s x)
                                    (Complex.Conj (ComplexPtr.load s y)))
                       (/ Complex.Quad (ComplexPtr.load s y))).
Proof.
  intros Hz Hx Hy O D E. assert (Q := Complex_guard_Quad _ E).
  quo_prefix s y E R1 N1 C1 A1.
  destruct O as [-> | D'].
  - quo_steps C1 Q. frame y.
  - quo_steps C1 Q. frame z.
Qed.

(** Receiver [x] itself: [Conj] overwrites x before [Mul] reads it. *)
Lemma ComplexPtr_Quo_writes_aliased s x y :
  (x + 1 < next s)%nat -> (y + 1 < next s)%nat ->
  objs x y ->
  Complex.Equals (ComplexPtr.load s y) Complex.new = false ->
  writes (ComplexPtr.Quo x x y) s x
         (Complex.Scal (Complex.Mul (Complex.Conj (ComplexPtr.load s y))
                                    (Complex.Conj (ComplexPtr.load s y)))
                       (/ Complex.Quad (ComplexPtr.load s y))).
Proof.
  intros Hx Hy O E. assert (Q := Complex_guard_Quad _ E).
  quo_prefix s y E R1 N1 C1 A1.
  destruct O as [-> | D'].
  - quo_steps C1 Q. frame y.
  - quo_steps C1 Q. frame x.
Qed.

(** ** hamilton.go on pointers: what each method writes *)

Lemma writes4_elim m s z v :
  writes4 m s z v ->
  exists s', m s = Ok (z, s') /\ (next s <= next s')%nat
             /\ agree (next s) s' (upd4 s z v).
Proof.
  unfold writes4. destruct (m s) as [[p s'] | | ]; try contradiction.
  intros [-> [H1 H2]]. exists s'. auto.
Qed.

Ltac objs_side := unfold objs; nexts; lia.

Ltac use_spec L :=
  let s' := fresh "s" in
  let R := fresh "R" in
  let N := fresh "N" in
  let A := fresh "A" in
  destruct (writes_elim _ _ _ _ L) as (s' & R & N & A);
  rewrite (bind_Ok _ _ _ _ _ R); cbv beta; clear R;
  repeat first [ rewrite next_upd in N | rewrite next_grow in N ].

Ltac cstep :=
  lazymatch goal with
  | |- context [mbind (ComplexPtr.Mul ?z ?x ?y) _ ?s] =>
      use_spec (ComplexPtr_Mul_writes s z x y ltac:(side) ltac:(side) ltac:(side))
  | |- context [mbind (ComplexPtr.Copy ?z ?y) _ ?s] =>
      use_spec (ComplexPtr_Copy_writes s z y ltac:(side) ltac:(side) ltac:(objs_side))
  | |- context [mbind (ComplexPtr.Conj ?z ?y) _ ?s] =>
      use_spec (ComplexPtr_Conj_writes s z y ltac:(side) ltac:(side) ltac:(objs_side))
  | |- context [mbind (ComplexPtr.Neg ?z ?y) _ ?s] =>
      use_spec (ComplexPtr_Neg_writes s z y ltac:(side) ltac:(side) ltac:(objs_side))
  | |- context [mbind (ComplexPtr.Add ?z ?x ?y) _ ?s] =>
      use_spec (ComplexPtr_Add_writes s z x y ltac:(side) ltac:(side) ltac:(side)
                         ltac:(objs_side) ltac:(objs_side))
  | |- context [mbind (ComplexPtr.Sub ?z ?x ?y) _ ?s] =>
      use_spec (ComplexPtr_Sub_writes s z x y ltac:(side) ltac:(side) ltac:(side)
                         ltac:(objs_side) ltac:(objs_side))
  | |- context [mbind (alloc _) _ _] => rewrite bind_alloc; cbv beta
  | |- context [mbind (ret _) _ _] => rewrite bind_ret; cbv beta
  end.

Ltac values :=
  cbv [Complex.Mul Complex.Add Complex.Sub Complex.Conj Complex.Neg
       Complex.Scal Complex.l Complex.r ComplexPtr.load ComplexPtr.l
       ComplexPtr.r upd2 upd4 HamiltonPtr.load HamiltonPtr.l HamiltonPtr.r
       Hamilton.Mul Hamilton.Sub Hamilton.Add Hamilton.Conj Hamilton.Neg
       Hamilton.l Hamilton.r Hamilton.Commutator].

Ltac settle := repeat (values; cells).

Lemma HamiltonPtr_Mul_writes s z x y :
  (z + 3 < next s)%nat -> (x + 3 < next s)%nat -> (y + 3 < next s)%nat ->
  writes4 (HamiltonPtr.Mul z x y) s z
          (Hamilton.Mul (HamiltonPtr.load s x) (HamiltonPtr.load s y)).
Proof.
  intros Hz Hx Hy.
  unfold writes4, HamiltonPtr.Mul, ComplexPtr.new, HamiltonPtr.l, HamiltonPtr.r.
  rewrite ?bind_bind.
  repeat cstep. unfold ret.
  split; [ reflexivity | split; [ side | ] ].
  intros p Hp.
  destruct (Nat.eq_dec p (z + 2 + 1)) as [-> | ?]; [ settle; reflexivity | ].
  destruct (Nat.eq_dec p (z + 2)) as [-> | ?]; [ settle; reflexivity | ].
  destruct (Nat.eq_dec p (z + 1)) as [-> | ?]; [ settle; reflexivity | ].
  destruct (Nat.eq_dec p z) as [-> | ?]; [ settle; reflexivity | ].
  settle; reflexivity.
Qed.

Ltac frame4 z :=
  split; [ reflexivity | split; [ side | ] ];
  let p := fresh "p" in let Hp := fresh "Hp" in
  intros p Hp;
  destruct (Nat.eq_dec p (z + 2 + 1)) as [-> | ?]; [ settle; reflexivity | ];
  destruct (Nat.eq_dec p (z + 2)) as [-> | ?]; [ settle; reflexivity | ];
  destruct (Nat.eq_dec p (z + 1)) as [-> | ?]; [ settle; reflexivity | ];
  destruct (Nat.eq_dec p z) as [-> | ?]; [ settle; reflexivity | ];
  settle; reflexivity.

Ltac hamilton_methods :=
  unfold ComplexPtr.new, HamiltonPtr.new, HamiltonPtr.l, HamiltonPtr.r;
  rewrite ?bind_bind.

Lemma HamiltonPtr_Sub_writes s z x y :
  (z + 3 < next s)%nat -> (x + 3 < next s)%nat -> (y + 3 < next s)%nat ->
  objs4 z x -> objs4 z y ->
  writes4 (HamiltonPtr.Sub z x y) s z
          (Hamilton.Sub (HamiltonPtr.load s x) (HamiltonPtr.load s y)).
Proof.
  intros Hz Hx Hy [-> | Dx] [E | Dy]; try subst y;
    unfold writes4, HamiltonPtr.Sub; hamilton_methods;
    repeat cstep; unfold ret;
    first [ frame4 z | frame4 x | frame4 y ].
Qed.

Ltac use_spec4 L :=
  let s' := fresh "s" in
  let R := fresh "R" in
  let N := fresh "N" in
  let A := fresh "A" in
  destruct (writes4_elim _ _ _ _ L) as (s' & R & N & A);
  rewrite (bind_Ok _ _ _ _ _ R); cbv beta; clear R;
  repeat first [ rewrite next_upd in N | rewrite next_grow in N ].

Ltac objs4_side := unfold objs4; nexts; lia.

Ltac hstep :=
  lazymatch goal with
  | |- context [mbind (HamiltonPtr.Mul ?z ?x ?y) _ ?s] =>
      use_spec4 (HamiltonPtr_Mul_writes s z x y ltac:(side) ltac:(side) ltac:(side))
  | |- context [mbind (alloc _) _ _] => rewrite bind_alloc; cbv beta
  | |- context [mbind (ret _) _ _] => rewrite bind_ret; cbv beta
  end.

Ltac commutator_run s z t1 t2 :=
  unfold writes4, HamiltonPtr.Commutator, HamiltonPtr.new;
  repeat hstep;
  match goal with
  | |- context [HamiltonPtr.Sub ?z ?x ?y ?s] =>
      let s' := fresh "s" in
      let R := fresh "R" in
      let N := fresh "N" in
      let A := fresh "A" in
      destruct (writes4_elim _ _ _ _
                  (HamiltonPtr_Sub_writes s z x y ltac:(side) ltac:(side) ltac:(side)
                             ltac:(objs4_side) ltac:(objs4_side)))
        as (s' & R & N & A);
      rewrite R; clear R
  end.

(** Receiver distinct from both operands. *)
Lemma HamiltonPtr_Commutator_writes s z x y :
  (z + 3 < next s)%nat -> (x + 3 < next s)%nat -> (y + 3 < next s)%nat ->
  ((z + 3 < x)%nat \/ (x + 3 < z)%nat) ->
  ((z + 3 < y)%nat \/ (y + 3 < z)%nat) ->
  writes4 (HamiltonPtr.Commutator z x y) s z
          (Hamilton.Commutator (HamiltonPtr.load s x) (HamiltonPtr.load s y)).
Proof.
  intros Hz Hx Hy Dx Dy. commutator_run s z t1 t2. frame4 z.
Qed.

(** Receiver [x]: the second product reads x after the first overwrote it. *)
Lemma HamiltonPtr_Commutator_writes_aliased_x s x y :
  (x + 3 < next s)%nat -> (y + 3 < next s)%nat ->
  ((x + 3 < y)%nat \/ (y + 3 < x)%nat) ->
  writes4 (HamiltonPtr.Commutator x x y) s x
          (let X := HamiltonPtr.load s x in
           let Y := HamiltonPtr.load s y in
           Hamilton.Sub (Hamilton.Mul X Y) (Hamilton.Mul Y (Hamilton.Mul X Y))).
Proof.
  intros Hx Hy D. cbv zeta. commutator_run s x t1 t2. frame4 x.
Qed.

Lemma HamiltonPtr_Commutator_writes_aliased_y s x y :
  (x + 3 < next s)%nat -> (y + 3 < next s)%nat ->
  ((x + 3 < y)%nat \/ (y + 3 < x)%nat) ->
  writes4 (HamiltonPtr.Commutator y x y) s y
          (let X := HamiltonPtr.load s x in
           let Y := HamiltonPtr.load s y in
           Hamilton.Sub (Hamilton.Mul X Y) (Hamilton.Mul (Hamilton.Mul X Y) X)).
Proof.
  intros Hx Hy D. cbv zeta. commutator_run s y t1 t2. frame4 y.
Qed.

(** ** Receivers that alias an operand, at concrete stores *)

Lemma Complex_result_by_Equals (o : outcome Complex.t) (v : Complex.t) :
  match o with Ok a => Complex.Equals a v | _ => false end = true ->
  o = Ok v.
Proof.
  destruct o as [a | msg | ]; try discriminate.
  intro H. apply Complex_Equals_iff in H. subst. reflexivity.
Qed.

Lemma Hamilton_result_by_Equals (o : outcome Hamilton.t) (v : Hamilton.t) :
  match o with Ok a => Hamilton.Equals a v | _ => false end = true ->
  o = Ok v.
Proof.
  destruct o as [a | msg | ]; try discriminate.
  intro H. apply Hamilton_Equals_iff in H. subst. reflexivity.
Qed.

(** C5, the code at inputs where the receiver is the operand x.
    With x = 6+0i in cells 0-1 and y = 2+0i in cells 2-3, [Quo] into a fresh
    receiver leaves 3+0i, and [Quo] into x itself leaves 1+0i.  With
    x = i in cells 0-3 and y = j in cells 4-7, [Commutator] into a fresh
    receiver leaves 2k, and [Commutator] into x itself leaves -i+k.
    [Mul], which copies its operands first, leaves the same value in
    both cases. *)
Theorem Quo_Commutator_receiver_aliasing :
  let sc := store_of (map BigFloat.of_Z [6; 0; 2; 0; 0; 0]%Z) in
  let sh := store_of (map BigFloat.of_Z
                          [0; 1; 0; 0; 0; 0; 1; 0; 0; 0; 0; 0]%Z) in
  result_at ComplexPtr.load (ComplexPtr.Quo 4 0 2) sc = Ok (complexZ 3 0)
  /\ result_at ComplexPtr.load (ComplexPtr.Quo 0 0 2) sc = Ok (complexZ 1 0)
  /\ Complex.Quo (complexZ 6 0) (complexZ 2 0) = Ok (complexZ 3 0)
  /\ result_at HamiltonPtr.load (HamiltonPtr.Commutator 8 0 4) sh
     = Ok (hamiltonZ 0 0 0 2)
  /\ result_at HamiltonPtr.load (HamiltonPtr.Commutator 0 0 4) sh
     = Ok (hamiltonZ 0 (-1) 0 1)
  /\ result_at HamiltonPtr.load (HamiltonPtr.Mul 8 0 4) sh
     = Ok (hamiltonZ 0 0 0 1)
  /\ result_at HamiltonPtr.load (HamiltonPtr.Mul 0 0 4) sh
     = Ok (hamiltonZ 0 0 0 1).
Proof.
  cbv zeta.
  repeat match goal with |- _ /\ _ => split end;
    first [ apply Complex_result_by_Equals | apply Hamilton_result_by_Equals ];
    vm_compute; reflexivity.
Qed.

(** * Further properties of the methods *)

Lemma of_Z_two : BigFloat.of_Z 2 = 1 + 1.
Proof. apply Qc_is_canon. reflexivity. Qed.

Ltac algebra :=
  intros;
  unfold Complex_one, Perplex_one, Infra_one, Hamilton_one, Cockle_one,
         Supra_one, two,
         Complex.NewComplex, Perplex.NewPerplex, Infra.NewInfra in *;
  rewrite ?of_Z_two in *;
  rank2_ring.

(** ** Addition, negation, conjugation, scaling *)

(** X1.  In each of the six algebras [Add] is commutative and the zero
    value is its identity. *)
Theorem Add_commutative_with_zero :
  (forall x y, Complex.Add x y = Complex.Add y x)
  /\ (forall x y, Perplex.Add x y = Perplex.Add y x)
  /\ (forall x y, Infra.Add x y = Infra.Add y x)
  /\ (forall x y, Hamilton.Add x y = Hamilton.Add y x)
  /\ (forall x y, Cockle.Add x y = Cockle.Add y x)
  /\ (forall x y, Supra.Add x y = Supra.Add y x)
  /\ (forall x, Complex.Add x Complex.new = x)
  /\ (forall x, Perplex.Add x Perplex.new = x)
  /\ (forall x, Infra.Add x Infra.new = x)
  /\ (forall x, Hamilton.Add x Hamilton.new = x)
  /\ (forall x, Cockle.Add x Cockle.new = x)
  /\ (forall x, Supra.Add x Supra.new = x).
Proof. repeat match goal with |- _ /\ _ => split end; algebra. Qed.

(** X2.  In each of the six algebras [Neg] and [Conj] are involutions and
    commute with each other. *)
Theorem Neg_Conj_involutions :
  (forall x, Complex.Neg (Complex.Neg x) = x)
  /\ (forall x, Perplex.Neg (Perplex.Neg x) = x)
  /\ (forall x, Infra.Neg (Infra.Neg x) = x)
  /\ (forall x, Hamilton.Neg (Hamilton.Neg x) = x)
  /\ (forall x, Cockle.Neg (Cockle.Neg x) = x)
  /\ (forall x, Supra.Neg (Supra.Neg x) = x)
  /\ (forall x, Complex.Conj (Complex.Conj x) = x)
  /\ (forall x, Perplex.Conj (Perplex.Conj x) = x)
  /\ (forall x, Infra.Conj (Infra.Conj x) = x)
  /\ (forall x, Hamilton.Conj (Hamilton.Conj x) = x)
  /\ (forall x, Cockle.Conj (Cockle.Conj x) = x)
  /\ (forall x, Supra.Conj (Supra.Conj x) = x)
  /\ (forall x, Complex.Neg (Complex.Conj x) = Complex.Conj (Complex.Neg x))
  /\ (forall x, Perplex.Neg (Perplex.Conj x) = Perplex.Conj (Perplex.Neg x))
  /\ (forall x, Infra.Neg (Infra.Conj x) = Infra.Conj (Infra.Neg x))
  /\ (forall x, Hamilton.Neg (Hamilton.Conj x)
                = Hamilton.Conj (Hamilton.Neg x))
  /\ (forall x, Cockle.Neg (Cockle.Conj x) = Cockle.Conj (Cockle.Neg x))
  /\ (forall x, Supra.Neg (Supra.Conj x) = Supra.Conj (Supra.Neg x)).
Proof. repeat match goal with |- _ /\ _ => split end; algebra. Qed.

(** X3.  In each of the six algebras [Sub] is anti-commutative,
    Sub(x,y) = Neg(Sub(y,x)), and is addition of the negative,
    Sub(x,y) = Add(x, Neg(y)). *)
Theorem Sub_anti_commutative :
  (forall x y, Complex.Sub x y = Complex.Neg (Complex.Sub y x))
  /\ (forall x y, Perplex.Sub x y = Perplex.Neg (Perplex.Sub y x))
  /\ (forall x y, Infra.Sub x y = Infra.Neg (Infra.Sub y x))
  /\ (forall x y, Hamilton.Sub x y = Hamilton.Neg (Hamilton.Sub y x))
  /\ (forall x y, Cockle.Sub x y = Cockle.Neg (Cockle.Sub y x))
  /\ (forall x y, Supra.Sub x y = Supra.Neg (Supra.Sub y x))
  /\ (forall x y, Complex.Sub x y = Complex.Add x (Complex.Neg y))
  /\ (forall x y, Perplex.Sub x y = Perplex.Add x (Perplex.Neg y))
  /\ (forall x y, Infra.Sub x y = Infra.Add x (Infra.Neg y))
  /\ (forall x y, Hamilton.Sub x y = Hamilton.Add x (Hamilton.Neg y))
  /\ (forall x y, Cockle.Sub x y = Cockle.Add x (Cockle.Neg y))
  /\ (forall x y, Supra.Sub x y = Supra.Add x (Supra.Neg y)).
Proof. repeat match goal with |- _ /\ _ => split end; algebra. Qed.

(** X4.  In each of the six algebras [Conj] distributes over [Add] and
    [Sub]. *)
Theorem Conj_distributes_over_Add_Sub :
  (forall x y, Complex.Conj (Complex.Add x y)
               = Complex.Add (Complex.Conj x) (Complex.Conj y))
  /\ (forall x y, Perplex.Conj (Perplex.Add x y)
                  = Perplex.Add (Perplex.Conj x) (Perplex.Conj y))
  /\ (forall x y, Infra.Conj (Infra.Add x y)
                  = Infra.Add (Infra.Conj x) (Infra.Conj y))
  /\ (forall x y, Hamilton.Conj (Hamilton.Add x y)
                  = Hamilton.Add (Hamilton.Conj x) (Hamilton.Conj y))
  /\ (forall x y, Cockle.Conj (Cockle.Add x y)
                  = Cockle.Add (Cockle.Conj x) (Cockle.Conj y))
  /\ (forall x y, Supra.Conj (Supra.Add x y)
                  = Supra.Add (Supra.Conj x) (Supra.Conj y))
  /\ (forall x y, Complex.Conj (Complex.Sub x y)
                  = Complex.Sub (Complex.Conj x) (Complex.Conj y))
  /\ (forall x y, Perplex.Conj (Perplex.Sub x y)
                  = Perplex.Sub (Perplex.Conj x) (Perplex.Conj y))
  /\ (forall x y, Infra.Conj (Infra.Sub x y)
                  = Infra.Sub (Infra.Conj x) (Infra.Conj y))
  /\ (forall x y, Hamilton.Conj (Hamilton.Sub x y)
                  = Hamilton.Sub (Hamilton.Conj x) (Hamilton.Conj y))
  /\ (forall x y, Cockle.Conj (Cockle.Sub x y)
                  = Cockle.Sub (Cockle.Conj x) (Cockle.Conj y))
  /\ (forall x y, Supra.Conj (Supra.Sub x y)
                  = Supra.Sub (Supra.Conj x) (Supra.Conj y)).
Proof. repeat match goal with |- _ /\ _ => split end; algebra. Qed.


(** ** Multiplication *)

(** X6.  In each of the six algebras the value 1 is a two-sided identity of
    [Mul]. *)
Theorem Mul_one_identity :
  (forall x, Complex.Mul x Complex_one = x /\ Complex.Mul Complex_one x = x)
  /\ (forall x, Perplex.Mul x Perplex_one = x
                /\ Perplex.Mul Perplex_one x = x)
  /\ (forall x, Infra.Mul x Infra_one = x /\ Infra.Mul Infra_one x = x)
  /\ (forall x, Hamilton.Mul x Hamilton_one = x
                /\ Hamilton.Mul Hamilton_one x = x)
  /\ (forall x, Cockle.Mul x Cockle_one = x /\ Cockle.Mul Cockle_one x = x)
  /\ (forall x, Supra.Mul x Supra_one = x /\ Supra.Mul Supra_one x = x).
Proof.
  repeat match goal with |- _ /\ _ => split end; intro x; split; algebra.
Qed.

Lemma Hamilton_Mul_assoc (x y z : Hamilton.t) :
  Hamilton.Mul (Hamilton.Mul x y) z = Hamilton.Mul x (Hamilton.Mul y z).
Proof. algebra. Qed.

Lemma Cockle_Mul_assoc (x y z : Cockle.t) :
  Cockle.Mul (Cockle.Mul x y) z = Cockle.Mul x (Cockle.Mul y z).
Proof. algebra. Qed.

Lemma Supra_Mul_assoc (x y z : Supra.t) :
  Supra.Mul (Supra.Mul x y) z = Supra.Mul x (Supra.Mul y z).
Proof. algebra. Qed.




(** X10.  In each of the six algebras a value times its conjugate, in
    either order, is its quadrance (as a scalar multiple of 1). *)
Theorem Mul_Conj_is_Quad :
  (forall x, Complex.Mul x (Complex.Conj x)
             = Complex.Scal Complex_one (Complex.Quad x)
             /\ Complex.Mul (Complex.Conj x) x
                = Complex.Scal Complex_one (Complex.Quad x))
  /\ (forall x, Perplex.Mul x (Perplex.Conj x)
                = Perplex.Scal Perplex_one (Perplex.Quad x)
                /\ Perplex.Mul (Perplex.Conj x) x
                   = Perplex.Scal Perplex_one (Perplex.Quad x))
  /\ (forall x, Infra.Mul x (Infra.Conj x)
                = Infra.Scal Infra_one (Infra.Quad x)
                /\ Infra.Mul (Infra.Conj x) x
                   = Infra.Scal Infra_one (Infra.Quad x))
  /\ (forall x, Hamilton.Mul x (Hamilton.Conj x)
                = Hamilton.Scal Hamilton_one (Hamilton.Quad x)
                /\ Hamilton.Mul (Hamilton.Conj x) x
                   = Hamilton.Scal Hamilton_one (Hamilton.Quad x))
  /\ (forall x, Cockle.Mul x (Cockle.Conj x)
                = Cockle.Scal Cockle_one (Cockle.Quad x)
                /\ Cockle.Mul (Cockle.Conj x) x
                   = Cockle.Scal Cockle_one (Cockle.Quad x))
  /\ (forall x, Supra.Mul x (Supra.Conj x)
                = Supra.Scal Supra_one (Supra.Quad x)
                /\ Supra.Mul (Supra.Conj x) x
                   = Supra.Scal Supra_one (Supra.Quad x)).
Proof.
  repeat match goal with |- _ /\ _ => split end; intro x; split; algebra.
Qed.

(** ** The products and quadrances in Cartesian components *)

(** X11.  On Cartesian components [Mul] of Hamilton, Cockle and Supra is
    the bilinear product of the multiplication rules in their doc
    comments: for Hamilton i*i = j*j = k*k = -1, i*j = -j*i = k,
    j*k = -k*j = i, k*i = -i*k = j; for Cockle i*i = -1, t*t = u*u = +1,
    i*t = -t*i = u, u*t = -t*u = i, u*i = -i*u = t; for Supra every square
    is 0, α*β = -β*α = γ and every other product of units is 0. *)
Theorem Rank2_Mul_Cartesian :
  (forall a1 b1 c1 d1 a2 b2 c2 d2,
      Hamilton.Cartesian (Hamilton.Mul (Hamilton.NewHamilton a1 b1 c1 d1)
                                       (Hamilton.NewHamilton a2 b2 c2 d2))
      = (a1 * a2 - b1 * b2 - c1 * c2 - d1 * d2,
         a1 * b2 + b1 * a2 + c1 * d2 - d1 * c2,
         a1 * c2 - b1 * d2 + c1 * a2 + d1 * b2,
         a1 * d2 + b1 * c2 - c1 * b2 + d1 * a2))
  /\ (forall a1 b1 c1 d1 a2 b2 c2 d2,
      Cockle.Cartesian (Cockle.Mul (Cockle.NewCockle a1 b1 c1 d1)
                                   (Cockle.NewCockle a2 b2 c2 d2))
      = (a1 * a2 - b1 * b2 + c1 * c2 + d1 * d2,
         a1 * b2 + b1 * a2 - c1 * d2 + d1 * c2,
         a1 * c2 - b1 * d2 + c1 * a2 + d1 * b2,
         a1 * d2 + b1 * c2 - c1 * b2 + d1 * a2))
  /\ (forall a1 b1 c1 d1 a2 b2 c2 d2,
      Supra.Cartesian (Supra.Mul (Supra.NewSupra a1 b1 c1 d1)
                                 (Supra.NewSupra a2 b2 c2 d2))
      = (a1 * a2,
         a1 * b2 + b1 * a2,
         a1 * c2 + c1 * a2,
         a1 * d2 + b1 * c2 - c1 * b2 + d1 * a2)).
Proof.
  repeat match goal with |- _ /\ _ => split end; intros;
    cbv [Hamilton.Cartesian Cockle.Cartesian Supra.Cartesian
         Hamilton.NewHamilton Cockle.NewCockle Supra.NewSupra
         Hamilton.Mul Cockle.Mul Supra.Mul
         Hamilton.l Hamilton.r Cockle.l Cockle.r Supra.l Supra.r
         Complex.Mul Complex.Add Complex.Sub Complex.Conj
         Complex.l Complex.r
         Infra.Mul Infra.Add Infra.Conj Infra.l Infra.r];
    scalar_unfold;
    repeat (f_equal; try ring).
Qed.

Lemma Infra_Quad_nonneg (z : Infra.t) : 0 <= Infra.Quad z.
Proof. destruct z as [a b]. apply square_nonneg. Qed.

(** X12.  The quadrances in Cartesian components, as the doc comments give
    them: a²+b² for Complex, a²-b² for Perplex, a² for Infra, a²+b²+c²+d²
    for Hamilton, a²+b²-c²-d² for Cockle, a² for Supra.  The quadrance of
    Infra and of Supra is never negative; that of Perplex and of Cockle
    takes positive, negative and zero values at nonzero arguments. *)
Theorem Quad_Cartesian :
  (forall a b, Complex.Quad (Complex.NewComplex a b) = a * a + b * b)
  /\ (forall a b, Perplex.Quad (Perplex.NewPerplex a b) = a * a - b * b)
  /\ (forall a b, Infra.Quad (Infra.NewInfra a b) = a * a)
  /\ (forall a b c d, Hamilton.Quad (Hamilton.NewHamilton a b c d)
                      = a * a + b * b + c * c + d * d)
  /\ (forall a b c d, Cockle.Quad (Cockle.NewCockle a b c d)
                      = a * a + b * b - c * c - d * d)
  /\ (forall a b c d, Supra.Quad (Supra.NewSupra a b c d) = a * a)
  /\ (forall z, 0 <= Infra.Quad z)
  /\ (forall z, 0 <= Supra.Quad z)
  /\ (exists x y z, x <> Perplex.new /\ y <> Perplex.new /\ z <> Perplex.new
        /\ 0 < Perplex.Quad x /\ Perplex.Quad y < 0 /\ Perplex.Quad z = 0)
  /\ (exists x y z, x <> Cockle.new /\ y <> Cockle.new /\ z <> Cockle.new
        /\ 0 < Cockle.Quad x /\ Cockle.Quad y < 0 /\ Cockle.Quad z = 0).
Proof.
  repeat match goal with |- _ /\ _ => split end; try (algebra; ring).
  - apply Infra_Quad_nonneg.
  - intro z. apply Infra_Quad_nonneg.
  - exists (Perplex.mk (BigFloat.of_Z 1) (BigFloat.of_Z 0)),
           (Perplex.mk (BigFloat.of_Z 0) (BigFloat.of_Z 1)),
           (Perplex.mk (BigFloat.of_Z 1) (BigFloat.of_Z 1)).
    repeat split; try discriminate.
  - exists (cockleZ 1 0 0 0), (cockleZ 0 0 1 0), (cockleZ 1 0 1 0).
    repeat split; try discriminate.
Qed.

(** ** Zero divisors and nilpotents *)

(** X13.  As the doc comment of Infra.IsZeroDiv says, a zero divisor of
    Infra is a nilpotent: IsZeroDiv(z) holds iff Mul(z,z) is zero; the
    same holds in Supra. *)
Theorem IsZeroDiv_iff_square_zero :
  (forall z, Infra.IsZeroDiv z = true <-> Infra.Mul z z = Infra.new)
  /\ (forall z, Supra.IsZeroDiv z = true <-> Supra.Mul z z = Supra.new).
Proof.
  split.
  - intros [a b]. rewrite Infra_IsZeroDiv_iff. split.
    + intros ->. algebra.
    + intro H. apply (f_equal Infra.l) in H.
      cbv [Infra.Mul Infra.l Infra.r Infra.new] in H. scalar_unfold.
      apply square_zero. exact H.
  - intros [[a b] [c d]]. rewrite Supra_IsZeroDiv_iff.
    cbv [Infra.l]. split.
    + intros ->. algebra.
    + intro H. apply (f_equal (fun z => Infra.l (Supra.l z))) in H.
      cbv [Supra.Mul Supra.l Supra.r Supra.new Infra.Mul Infra.l Infra.r
           Infra.new] in H. scalar_unfold.
      apply square_zero. exact H.
Qed.

(** ** Commutators *)

(** X14.  In Hamilton, Cockle and Supra the commutator is anti-symmetric,
    vanishes on equal arguments, has real part 0, vanishes exactly when
    the two products agree, and is not always zero. *)
Theorem Commutator_properties :
  (forall x y, Hamilton.Commutator x y
               = Hamilton.Neg (Hamilton.Commutator y x))
  /\ (forall x y, Cockle.Commutator x y = Cockle.Neg (Cockle.Commutator y x))
  /\ (forall x y, Supra.Commutator x y = Supra.Neg (Supra.Commutator y x))
  /\ (forall x, Hamilton.Commutator x x = Hamilton.new)
  /\ (forall x, Cockle.Commutator x x = Cockle.new)
  /\ (forall x, Supra.Commutator x x = Supra.new)
  /\ (forall x y, Hamilton.Real (Hamilton.Commutator x y) = 0)
  /\ (forall x y, Cockle.Real (Cockle.Commutator x y) = 0)
  /\ (forall x y, Supra.Real (Supra.Commutator x y) = 0)
  /\ (forall x y, Hamilton.Commutator x y = Hamilton.new
                  <-> Hamilton.Mul x y = Hamilton.Mul y x)
  /\ (forall x y, Cockle.Commutator x y = Cockle.new
                  <-> Cockle.Mul x y = Cockle.Mul y x)
  /\ (forall x y, Supra.Commutator x y = Supra.new
                  <-> Supra.Mul x y = Supra.Mul y x)
  /\ (exists x y, Hamilton.Commutator x y <> Hamilton.new)
  /\ (exists x y, Cockle.Commutator x y <> Cockle.new)
  /\ (exists x y, Supra.Commutator x y <> Supra.new).
Proof.
  repeat match goal with |- _ /\ _ => split end; try (algebra; fail).
  - intros. cbv [Hamilton.Real Complex.Real]. algebra; try ring.
  - intros. cbv [Cockle.Real Complex.Real]. algebra; try ring.
  - intros. cbv [Supra.Real Infra.Real]. algebra; try ring.
  - intros x y. unfold Hamilton.Commutator. split; intro H.
    + replace (Hamilton.Mul x y)
        with (Hamilton.Add (Hamilton.Sub (Hamilton.Mul x y)
                                         (Hamilton.Mul y x))
                           (Hamilton.Mul y x)) by algebra.
      rewrite H. algebra.
    + rewrite H. algebra.
  - intros x y. unfold Cockle.Commutator. split; intro H.
    + replace (Cockle.Mul x y)
        with (Cockle.Add (Cockle.Sub (Cockle.Mul x y) (Cockle.Mul y x))
                         (Cockle.Mul y x)) by algebra.
      rewrite H. algebra.
    + rewrite H. algebra.
  - intros x y. unfold Supra.Commutator. split; intro H.
    + replace (Supra.Mul x y)
        with (Supra.Add (Supra.Sub (Supra.Mul x y) (Supra.Mul y x))
                        (Supra.Mul y x)) by algebra.
      rewrite H. algebra.
    + rewrite H. algebra.
  - exists (hamiltonZ 0 1 0 0), (hamiltonZ 0 0 1 0). intro H.
    apply Hamilton_Equals_iff in H. vm_compute in H. discriminate H.
  - exists (cockleZ 0 1 0 0), (cockleZ 0 0 1 0). intro H.
    apply Cockle_Equals_iff in H. vm_compute in H. discriminate H.
  - exists (supraZ 0 1 0 0), (supraZ 0 0 1 0). intro H.
    apply Supra_Equals_iff in H. vm_compute in H. discriminate H.
Qed.

(** ** More on the nilpotency test *)


Lemma Cockle_Quad_Mul (x y : Cockle.t) :
  Cockle.Quad (Cockle.Mul x y)
  = BigFloat.Mul (Cockle.Quad x) (Cockle.Quad y).
Proof. algebra; ring. Qed.











(** ** Laws of the inverse *)

Ltac quads :=
  cbv [Complex.Quad Perplex.Quad Infra.Quad Hamilton.Quad Cockle.Quad
       Supra.Quad Complex.l Complex.r Perplex.l Perplex.r Infra.l Infra.r
       Hamilton.l Hamilton.r Cockle.l Cockle.r Supra.l Supra.r] in *;
  scalar_unfold.

Lemma Complex_Mul_Inv (x xi : Complex.t) :
  Complex.Inv x = Ok xi ->
  Complex.Mul x xi = Complex_one /\ Complex.Mul xi x = Complex_one.
Proof.
  intro H. destruct (Complex_invertible x xi H) as [E ->].
  apply Complex_guard_Quad in E. destruct x as [a b]. quads.
  unfold Complex_one, Complex.NewComplex.
  split; rank1_ring; f_equal; field;
    first [ exact E | intro Z; apply E; rewrite Z; ring ].
Qed.

Lemma Perplex_Mul_Inv (x xi : Perplex.t) :
  Perplex.Inv x = Ok xi ->
  Perplex.Mul x xi = Perplex_one /\ Perplex.Mul xi x = Perplex_one.
Proof.
  intro H. destruct (Perplex_invertible x xi H) as [E ->].
  apply Perplex_guard_Quad in E. destruct x as [a b]. quads.
  unfold Perplex_one, Perplex.NewPerplex.
  split; rank1_ring; f_equal; field;
    first [ exact E | intro Z; apply E; rewrite Z; ring ].
Qed.

Lemma Infra_Mul_Inv (x xi : Infra.t) :
  Infra.Inv x = Ok xi ->
  Infra.Mul x xi = Infra_one /\ Infra.Mul xi x = Infra_one.
Proof.
  intro H. destruct (Infra_invertible x xi H) as [E ->].
  apply Infra_guard_Quad in E. destruct x as [a b]. quads.
  unfold Infra_one, Infra.NewInfra.
  split; rank1_ring; f_equal; field;
    first [ exact E | intro Z; apply E; rewrite Z; ring ].
Qed.

Lemma Hamilton_Mul_Inv (x xi : Hamilton.t) :
  Hamilton.Inv x = Ok xi ->
  Hamilton.Mul x xi = Hamilton_one /\ Hamilton.Mul xi x = Hamilton_one.
Proof.
  intro H. destruct (Hamilton_invertible x xi H) as [E ->].
  apply Hamilton_guard_Quad in E. destruct x as [[a b] [c d]]. quads.
  unfold Hamilton_one, Hamilton.NewHamilton.
  split; rank2_ring; f_equal; f_equal; field;
    first [ exact E | intro Z; apply E; rewrite Z; ring ].
Qed.

Lemma Cockle_Mul_Inv (x xi : Cockle.t) :
  Cockle.Inv x = Ok xi ->
  Cockle.Mul x xi = Cockle_one /\ Cockle.Mul xi x = Cockle_one.
Proof.
  intro H. destruct (Cockle_invertible x xi H) as [E ->].
  apply Cockle_guard_Quad in E. destruct x as [[a b] [c d]]. quads.
  unfold Cockle_one, Cockle.NewCockle.
  split; rank2_ring; f_equal; f_equal; field;
    first [ exact E | intro Z; apply E; rewrite Z; ring ].
Qed.

Lemma Supra_Mul_Inv (x xi : Supra.t) :
  Supra.Inv x = Ok xi ->
  Supra.Mul x xi = Supra_one /\ Supra.Mul xi x = Supra_one.
Proof.
  intro H. destruct (Supra_invertible x xi H) as [E ->].
  apply Supra_guard_Quad in E. destruct x as [[a b] [c d]]. quads.
  unfold Supra_one, Supra.NewSupra.
  split; rank2_ring; f_equal; f_equal; field;
    first [ exact E | intro Z; apply E; rewrite Z; ring ].
Qed.



(** What follows from a two-sided inverse in any of the algebras. *)
Section InverseLaws.

Variable T : Type.
Variable mul : T -> T -> T.
Variable one : T.
Variable quad : T -> Qc.
Variable inv : T -> outcome T.

Hypothesis mul_assoc : forall x y z, mul (mul x y) z = mul x (mul y z).
Hypothesis mul_one_l : forall x, mul one x = x.
Hypothesis mul_one_r : forall x, mul x one = x.
Hypothesis quad_mul : forall x y, quad (mul x y) = quad x * quad y.
Hypothesis quad_one : quad one = 1.
Hypothesis inv_returns : forall x, quad x <> 0 -> exists xi, inv x = Ok xi.
Hypothesis inv_sound :
  forall x xi, inv x = Ok xi -> mul x xi = one /\ mul xi x = one.


Lemma unit_quad_nonzero (x y : T) : mul x y = one -> quad x <> 0.
Proof.
  intros H Z. apply (f_equal quad) in H.
  rewrite quad_mul, quad_one, Z in H.
  replace (0 * quad y) with 0 in H by ring. discriminate H.
Qed.



Lemma inverse_of_one : inv one = Ok one.
Proof using All.
  assert (N : quad one <> 0).
  { apply (unit_quad_nonzero one one). apply mul_one_l. }
  destruct (inv_returns one N) as [w Hw]. rewrite Hw. f_equal.
  destruct (inv_sound one w Hw) as [H _].
  rewrite mul_one_l in H. exact H.
Qed.

End InverseLaws.

Lemma Perplex_Quad_Mul (x y : Perplex.t) :
  Perplex.Quad (Perplex.Mul x y)
  = BigFloat.Mul (Perplex.Quad x) (Perplex.Quad y).
Proof. algebra; ring. Qed.

Lemma Infra_Quad_Mul (x y : Infra.t) :
  Infra.Quad (Infra.Mul x y) = BigFloat.Mul (Infra.Quad x) (Infra.Quad y).
Proof. algebra; ring. Qed.

Lemma Supra_Quad_Mul (x y : Supra.t) :
  Supra.Quad (Supra.Mul x y) = BigFloat.Mul (Supra.Quad x) (Supra.Quad y).
Proof. algebra; ring. Qed.

Lemma Complex_Inv_returns (x : Complex.t) :
  Complex.Quad x <> 0 -> exists xi, Complex.Inv x = Ok xi.
Proof.
  intro N. destruct (Complex.Equals x Complex.new) eqn:E.
  - apply Complex_Equals_iff in E. apply Complex_Quad_zero_iff in E.
    contradiction.
  - eexists. apply Complex_Inv_value, E.
Qed.

Lemma Hamilton_Inv_returns (x : Hamilton.t) :
  Hamilton.Quad x <> 0 -> exists xi, Hamilton.Inv x = Ok xi.
Proof.
  intro N. destruct (Hamilton.Equals x Hamilton.new) eqn:E.
  - apply Hamilton_Equals_iff in E. apply Hamilton_Quad_zero_iff in E.
    contradiction.
  - eexists. apply Hamilton_Inv_value, E.
Qed.

Lemma Perplex_Inv_returns (x : Perplex.t) :
  Perplex.Quad x <> 0 -> exists xi, Perplex.Inv x = Ok xi.
Proof.
  intro N. destruct (Perplex.IsZeroDiv x) eqn:E.
  - apply Perplex_IsZeroDiv_Quad in E. contradiction.
  - eexists. apply Perplex_Inv_value, E.
Qed.

Lemma Infra_Inv_returns (x : Infra.t) :
  Infra.Quad x <> 0 -> exists xi, Infra.Inv x = Ok xi.
Proof.
  intro N. destruct (Infra.IsZeroDiv x) eqn:E.
  - apply Infra_IsZeroDiv_Quad in E. contradiction.
  - eexists. apply Infra_Inv_value, E.
Qed.

Lemma Cockle_Inv_returns (x : Cockle.t) :
  Cockle.Quad x <> 0 -> exists xi, Cockle.Inv x = Ok xi.
Proof.
  intro N. destruct (Cockle.IsZeroDiv x) eqn:E.
  - apply Cockle_IsZeroDiv_Quad in E. contradiction.
  - eexists. apply Cockle_Inv_value, E.
Qed.

Lemma Supra_Inv_returns (x : Supra.t) :
  Supra.Quad x <> 0 -> exists xi, Supra.Inv x = Ok xi.
Proof.
  intro N. destruct (Supra.IsZeroDiv x) eqn:E.
  - apply Supra_IsZeroDiv_Quad in E. contradiction.
  - eexists. apply Supra_Inv_value, E.
Qed.

Ltac inverse_law L :=
  first
    [ eapply (L Complex.t Complex.Mul Complex_one Complex.Quad Complex.Inv);
      [ exact Complex_Mul_assoc | algebra | algebra | exact Complex_Quad_Mul
      | apply Qc_is_canon; reflexivity | exact Complex_Inv_returns
      | exact Complex_Mul_Inv | .. ]
    | eapply (L Perplex.t Perplex.Mul Perplex_one Perplex.Quad Perplex.Inv);
      [ exact Perplex_Mul_assoc | algebra | algebra | exact Perplex_Quad_Mul
      | apply Qc_is_canon; reflexivity | exact Perplex_Inv_returns
      | exact Perplex_Mul_Inv | .. ]
    | eapply (L Infra.t Infra.Mul Infra_one Infra.Quad Infra.Inv);
      [ exact Infra_Mul_assoc | algebra | algebra | exact Infra_Quad_Mul
      | apply Qc_is_canon; reflexivity | exact Infra_Inv_returns
      | exact Infra_Mul_Inv | .. ]
    | eapply (L Hamilton.t Hamilton.Mul Hamilton_one Hamilton.Quad
                Hamilton.Inv);
      [ exact Hamilton_Mul_assoc | algebra | algebra
      | exact Hamilton_Quad_Mul
      | apply Qc_is_canon; reflexivity | exact Hamilton_Inv_returns
      | exact Hamilton_Mul_Inv | .. ]
    | eapply (L Cockle.t Cockle.Mul Cockle_one Cockle.Quad Cockle.Inv);
      [ exact Cockle_Mul_assoc | algebra | algebra | exact Cockle_Quad_Mul
      | apply Qc_is_canon; reflexivity | exact Cockle_Inv_returns
      | exact Cockle_Mul_Inv | .. ]
    | eapply (L Supra.t Supra.Mul Supra_one Supra.Quad Supra.Inv);
      [ exact Supra_Mul_assoc | algebra | algebra | exact Supra_Quad_Mul
      | apply Qc_is_canon; reflexivity | exact Supra_Inv_returns
      | exact Supra_Mul_Inv | .. ] ].



(** ** Quotients of a value by itself and by 1 *)

(** X19.  In each of the six algebras the quotient of an invertible value
    by itself is 1, and the quotient of any value by 1 is that value. *)
Theorem Quo_self_and_one :
  (forall x xi, Complex.Inv x = Ok xi -> Complex.Quo x x = Ok Complex_one)
  /\ (forall x xi, Perplex.Inv x = Ok xi ->
        Perplex.Quo x x = Ok Perplex_one)
  /\ (forall x xi, Infra.Inv x = Ok xi -> Infra.Quo x x = Ok Infra_one)
  /\ (forall x xi, Hamilton.Inv x = Ok xi ->
        Hamilton.QuoL x x = Ok Hamilton_one
        /\ Hamilton.QuoR x x = Ok Hamilton_one)
  /\ (forall x xi, Cockle.Inv x = Ok xi ->
        Cockle.QuoL x x = Ok Cockle_one /\ Cockle.QuoR x x = Ok Cockle_one)
  /\ (forall x xi, Supra.Inv x = Ok xi ->
        Supra.QuoL x x = Ok Supra_one /\ Supra.QuoR x x = Ok Supra_one)
  /\ (forall x, Complex.Quo x Complex_one = Ok x)
  /\ (forall x, Perplex.Quo x Perplex_one = Ok x)
  /\ (forall x, Infra.Quo x Infra_one = Ok x)
  /\ (forall x, Hamilton.QuoL x Hamilton_one = Ok x
                /\ Hamilton.QuoR x Hamilton_one = Ok x)
  /\ (forall x, Cockle.QuoL x Cockle_one = Ok x
                /\ Cockle.QuoR x Cockle_one = Ok x)
  /\ (forall x, Supra.QuoL x Supra_one = Ok x
                /\ Supra.QuoR x Supra_one = Ok x).
Proof.
  repeat match goal with |- _ /\ _ => split end.
  - intros x xi H. rewrite (Complex_Quo_Mul_Inv x x xi H).
    f_equal. apply (Complex_Mul_Inv x xi H).
  - intros x xi H. rewrite (Perplex_Quo_Mul_Inv x x xi H).
    f_equal. apply (Perplex_Mul_Inv x xi H).
  - intros x xi H. rewrite (Infra_Quo_Mul_Inv x x xi H).
    f_equal. apply (Infra_Mul_Inv x xi H).
  - intros x xi H. destruct (Hamilton_Quo_Mul_Inv x x xi H) as [-> ->].
    destruct (Hamilton_Mul_Inv x xi H) as [-> ->]. split; reflexivity.
  - intros x xi H. destruct (Cockle_Quo_Mul_Inv x x xi H) as [-> ->].
    destruct (Cockle_Mul_Inv x xi H) as [-> ->]. split; reflexivity.
  - intros x xi H. destruct (Supra_Quo_Mul_Inv x x xi H) as [-> ->].
    destruct (Supra_Mul_Inv x xi H) as [-> ->]. split; reflexivity.
  - intro x.
    assert (I : Complex.Inv Complex_one = Ok Complex_one)
      by inverse_law inverse_of_one.
    rewrite (Complex_Quo_Mul_Inv x _ _ I). f_equal. algebra.
  - intro x.
    assert (I : Perplex.Inv Perplex_one = Ok Perplex_one)
      by inverse_law inverse_of_one.
    rewrite (Perplex_Quo_Mul_Inv x _ _ I). f_equal. algebra.
  - intro x.
    assert (I : Infra.Inv Infra_one = Ok Infra_one)
      by inverse_law inverse_of_one.
    rewrite (Infra_Quo_Mul_Inv x _ _ I). f_equal. algebra.
  - intro x.
    assert (I : Hamilton.Inv Hamilton_one = Ok Hamilton_one)
      by inverse_law inverse_of_one.
    destruct (Hamilton_Quo_Mul_Inv x _ _ I) as [-> ->].
    split; f_equal; algebra.
  - intro x.
    assert (I : Cockle.Inv Cockle_one = Ok Cockle_one)
      by inverse_law inverse_of_one.
    destruct (Cockle_Quo_Mul_Inv x _ _ I) as [-> ->].
    split; f_equal; algebra.
  - intro x.
    assert (I : Supra.Inv Supra_one = Ok Supra_one)
      by inverse_law inverse_of_one.
    destruct (Supra_Quo_Mul_Inv x _ _ I) as [-> ->].
    split; f_equal; algebra.
Qed.

(** ** Cross-ratios and Möbius transforms *)

Lemma fails_exactly_cases {A : Type} (o : outcome A) (k : DomainError)
      (P : Prop) :
  fails_exactly_when o k P ->
  (P /\ exists msg, o = Panic msg /\ kind_of_panic msg = Some k)
  \/ (~ P /\ exists a, o = Ok a).
Proof.
  intros [F R]. destruct o as [a | msg | ].
  - right. split; [ apply R; exists a; reflexivity | exists a; reflexivity ].
  - left.
    assert (D : kind_of_panic msg = Some k \/ kind_of_panic msg <> Some k).
    { destruct (kind_of_panic msg) as [[ | ] | ]; destruct k;
        first [ left; reflexivity | right; discriminate ]. }
    destruct D as [D | D].
    + split; [ apply F | ]; exists msg; auto.
    + exfalso.
      assert (N : ~ P).
      { intro HP. apply F in HP. destruct HP as [m [E K]].
        injection E as <-. contradiction. }
      apply R in N. destruct N as [a E]. discriminate E.
  - exfalso.
    assert (N : ~ P).
    { intro HP. apply F in HP. destruct HP as [m [E K]]. discriminate E. }
    apply R in N. destruct N as [a E]. discriminate E.
Qed.

Lemma seq1_fails_exactly {A B : Type} (o : outcome A) (f : A -> B)
      (k : DomainError) (P : Prop) :
  fails_exactly_when o k P ->
  fails_exactly_when (t <- o ;; Ok (f t)) k P.
Proof.
  intro H. destruct (fails_exactly_cases o k P H)
    as [[HP [m [-> K]]] | [HN [a ->]]]; simpl; split; split.
  - intros _. exact HP.
  - intros _. exists m. auto.
  - intros [b E]. discriminate E.
  - intro N. contradiction.
  - intros [m [E _]]. discriminate E.
  - intro HP. contradiction.
  - intros _. exact HN.
  - intros _. eexists. reflexivity.
Qed.

Lemma seq2_fails_exactly {A B : Type} (o1 o2 : outcome A) (f : A -> A -> B)
      (k : DomainError) (P1 P2 : Prop) :
  fails_exactly_when o1 k P1 ->
  fails_exactly_when o2 k P2 ->
  fails_exactly_when (z <- o1 ;; t <- o2 ;; Ok (f z t)) k (P1 \/ P2).
Proof.
  intros H1 H2.
  destruct (fails_exactly_cases o1 k P1 H1)
    as [[HP1 [m1 [-> K1]]] | [HN1 [a1 ->]]]; simpl.
  - split; split.
    + intros _. left. exact HP1.
    + intros _. exists m1. auto.
    + intros [b E]. discriminate E.
    + intro N. exfalso. apply N. left. exact HP1.
  - destruct (fails_exactly_cases o2 k P2 H2)
      as [[HP2 [m2 [-> K2]]] | [HN2 [a2 ->]]]; simpl; split; split.
    + intros _. right. exact HP2.
    + intros _. exists m2. auto.
    + intros [b E]. discriminate E.
    + intro N. exfalso. apply N. right. exact HP2.
    + intros [m [E _]]. discriminate E.
    + intros [HP | HP]; contradiction.
    + intros _ [HP | HP]; contradiction.
    + intros _. eexists. reflexivity.
Qed.

Lemma Complex_Inv_fails_exactly (y : Complex.t) :
  fails_exactly_when (Complex.Inv y) DivideByZero (y = Complex.new).
Proof.
  guarded_call "zero inverse"%string Complex_Inv_value.
  apply Complex_Equals_iff.
Qed.

Lemma Hamilton_Inv_fails_exactly (y : Hamilton.t) :
  fails_exactly_when (Hamilton.Inv y) DivideByZero (y = Hamilton.new).
Proof.
  guarded_call "inverse of zero"%string Hamilton_Inv_value.
  apply Hamilton_Equals_iff.
Qed.

Lemma Perplex_Inv_fails_exactly (y : Perplex.t) :
  fails_exactly_when (Perplex.Inv y) ZeroDivisor
                     (Perplex.IsZeroDiv y = true).
Proof. guarded_call "zero divisor inverse"%string Perplex_Inv_value. Qed.

Lemma Infra_Inv_fails_exactly (y : Infra.t) :
  fails_exactly_when (Infra.Inv y) ZeroDivisor (Infra.IsZeroDiv y = true).
Proof. guarded_call "zero divisor inverse"%string Infra_Inv_value. Qed.

Lemma Cockle_Inv_fails_exactly (y : Cockle.t) :
  fails_exactly_when (Cockle.Inv y) ZeroDivisor (Cockle.IsZeroDiv y = true).
Proof. guarded_call "inverse of zero divisor"%string Cockle_Inv_value. Qed.

Lemma Supra_Inv_fails_exactly (y : Supra.t) :
  fails_exactly_when (Supra.Inv y) ZeroDivisor (Supra.IsZeroDiv y = true).
Proof. guarded_call "inverse of zero divisor"%string Supra_Inv_value. Qed.

(** X20.  A cross-ratio fails exactly when one of the two differences it
    inverts, w - x or v - y, is not invertible, and returns a value
    otherwise: with DivideByZero for Complex and Hamilton (when the
    difference is zero), with ZeroDivisor for the others (when the
    difference satisfies [IsZeroDiv]). *)
Theorem CrossRatio_fails_exactly :
  (forall v w x y,
      fails_exactly_when (Complex.CrossRatio v w x y) DivideByZero
        (Complex.Sub w x = Complex.new \/ Complex.Sub v y = Complex.new))
  /\ (forall v w x y,
      fails_exactly_when (Perplex.CrossRatio v w x y) ZeroDivisor
        (Perplex.IsZeroDiv (Perplex.Sub w x) = true
         \/ Perplex.IsZeroDiv (Perplex.Sub v y) = true))
  /\ (forall v w x y,
      fails_exactly_when (Infra.CrossRatio v w x y) ZeroDivisor
        (Infra.IsZeroDiv (Infra.Sub w x) = true
         \/ Infra.IsZeroDiv (Infra.Sub v y) = true))
  /\ (forall v w x y,
      fails_exactly_when (Hamilton.CrossRatioL v w x y) DivideByZero
        (Hamilton.Sub w x = Hamilton.new \/ Hamilton.Sub v y = Hamilton.new))
  /\ (forall v w x y,
      fails_exactly_when (Hamilton.CrossRatioR v w x y) DivideByZero
        (Hamilton.Sub w x = Hamilton.new \/ Hamilton.Sub v y = Hamilton.new))
  /\ (forall v w x y,
      fails_exactly_when (Cockle.CrossRatioL v w x y) ZeroDivisor
        (Cockle.IsZeroDiv (Cockle.Sub w x) = true
         \/ Cockle.IsZeroDiv (Cockle.Sub v y) = true))
  /\ (forall v w x y,
      fails_exactly_when (Cockle.CrossRatioR v w x y) ZeroDivisor
        (Cockle.IsZeroDiv (Cockle.Sub w x) = true
         \/ Cockle.IsZeroDiv (Cockle.Sub v y) = true))
  /\ (forall v w x y,
      fails_exactly_when (Supra.CrossFloatioL v w x y) ZeroDivisor
        (Supra.IsZeroDiv (Supra.Sub w x) = true
         \/ Supra.IsZeroDiv (Supra.Sub v y) = true))
  /\ (forall v w x y,
      fails_exactly_when (Supra.CrossFloatioR v w x y) ZeroDivisor
        (Supra.IsZeroDiv (Supra.Sub w x) = true
         \/ Supra.IsZeroDiv (Supra.Sub v y) = true)).
Proof.
  repeat match goal with |- _ /\ _ => split end; intros v w x y.
  - exact (seq2_fails_exactly _ _
             (fun z t => Complex.Mul (Complex.Mul (Complex.Mul z
                           (Complex.Sub v x)) t) (Complex.Sub w y)) _ _ _
             (Complex_Inv_fails_exactly _) (Complex_Inv_fails_exactly _)).
  - exact (seq2_fails_exactly _ _
             (fun z t => Perplex.Mul (Perplex.Mul (Perplex.Mul z
                           (Perplex.Sub v x)) t) (Perplex.Sub w y)) _ _ _
             (Perplex_Inv_fails_exactly _) (Perplex_Inv_fails_exactly _)).
  - exact (seq2_fails_exactly _ _
             (fun z t => Infra.Mul (Infra.Mul (Infra.Mul z
                           (Infra.Sub v x)) t) (Infra.Sub w y)) _ _ _
             (Infra_Inv_fails_exactly _) (Infra_Inv_fails_exactly _)).
  - exact (seq2_fails_exactly _ _
             (fun z t => Hamilton.Mul (Hamilton.Mul (Hamilton.Mul z
                           (Hamilton.Sub v x)) t) (Hamilton.Sub w y)) _ _ _
             (Hamilton_Inv_fails_exactly _) (Hamilton_Inv_fails_exactly _)).
  - exact (seq2_fails_exactly _ _
             (fun z t => Hamilton.Mul (Hamilton.Mul (Hamilton.Mul
                           (Hamilton.Sub v x) z) (Hamilton.Sub w y)) t)
             _ _ _
             (Hamilton_Inv_fails_exactly _) (Hamilton_Inv_fails_exactly _)).
  - exact (seq2_fails_exactly _ _
             (fun z t => Cockle.Mul (Cockle.Mul (Cockle.Mul z
                           (Cockle.Sub v x)) t) (Cockle.Sub w y)) _ _ _
             (Cockle_Inv_fails_exactly _) (Cockle_Inv_fails_exactly _)).
  - exact (seq2_fails_exactly _ _
             (fun z t => Cockle.Mul (Cockle.Mul (Cockle.Mul
                           (Cockle.Sub v x) z) (Cockle.Sub w y)) t) _ _ _
             (Cockle_Inv_fails_exactly _) (Cockle_Inv_fails_exactly _)).
  - exact (seq2_fails_exactly _ _
             (fun z t => Supra.Mul (Supra.Mul (Supra.Mul z
                           (Supra.Sub v x)) t) (Supra.Sub w y)) _ _ _
             (Supra_Inv_fails_exactly _) (Supra_Inv_fails_exactly _)).
  - exact (seq2_fails_exactly _ _
             (fun z t => Supra.Mul (Supra.Mul (Supra.Mul
                           (Supra.Sub v x) z) (Supra.Sub w y)) t) _ _ _
             (Supra_Inv_fails_exactly _) (Supra_Inv_fails_exactly _)).
Qed.

(** X21.  A Möbius transform fails exactly when its denominator c*y + d
    (y*c + d for [MöbiusL]) is not invertible, and returns a value
    otherwise; with c = 0 and d = 1 it is the affine map a*y + b
    (y*a + b for [MöbiusL]), so with a = 1 and b = 0 besides it returns
    y. *)
Theorem Moebius_fails_exactly :
  (forall y a b c d,
      fails_exactly_when (Complex.Möbius y a b c d) DivideByZero
        (Complex.Add (Complex.Mul c y) d = Complex.new))
  /\ (forall y a b c d,
      fails_exactly_when (Perplex.Möbius y a b c d) ZeroDivisor
        (Perplex.IsZeroDiv (Perplex.Add (Perplex.Mul c y) d) = true))
  /\ (forall y a b c d,
      fails_exactly_when (Infra.Möbius y a b c d) ZeroDivisor
        (Infra.IsZeroDiv (Infra.Add (Infra.Mul c y) d) = true))
  /\ (forall y a b c d,
      fails_exactly_when (Hamilton.MöbiusL y a b c d) DivideByZero
        (Hamilton.Add (Hamilton.Mul y c) d = Hamilton.new))
  /\ (forall y a b c d,
      fails_exactly_when (Hamilton.MöbiusR y a b c d) DivideByZero
        (Hamilton.Add (Hamilton.Mul c y) d = Hamilton.new))
  /\ (forall y a b c d,
      fails_exactly_when (Cockle.MöbiusL y a b c d) ZeroDivisor
        (Cockle.IsZeroDiv (Cockle.Add (Cockle.Mul y c) d) = true))
  /\ (forall y a b c d,
      fails_exactly_when (Cockle.MöbiusR y a b c d) ZeroDivisor
        (Cockle.IsZeroDiv (Cockle.Add (Cockle.Mul c y) d) = true))
  /\ (forall y a b c d,
      fails_exactly_when (Supra.MöbiusL y a b c d) ZeroDivisor
        (Supra.IsZeroDiv (Supra.Add (Supra.Mul y c) d) = true))
  /\ (forall y a b c d,
      fails_exactly_when (Supra.MöbiusR y a b c d) ZeroDivisor
        (Supra.IsZeroDiv (Supra.Add (Supra.Mul c y) d) = true))
  /\ (forall y a b, Complex.Möbius y a b Complex.new Complex_one
                    = Ok (Complex.Add (Complex.Mul a y) b))
  /\ (forall y a b, Perplex.Möbius y a b Perplex.new Perplex_one
                    = Ok (Perplex.Add (Perplex.Mul a y) b))
  /\ (forall y a b, Infra.Möbius y a b Infra.new Infra_one
                    = Ok (Infra.Add (Infra.Mul a y) b))
  /\ (forall y a b, Hamilton.MöbiusL y a b Hamilton.new Hamilton_one
                    = Ok (Hamilton.Add (Hamilton.Mul y a) b))
  /\ (forall y a b, Hamilton.MöbiusR y a b Hamilton.new Hamilton_one
                    = Ok (Hamilton.Add (Hamilton.Mul a y) b))
  /\ (forall y a b, Cockle.MöbiusL y a b Cockle.new Cockle_one
                    = Ok (Cockle.Add (Cockle.Mul y a) b))
  /\ (forall y a b, Cockle.MöbiusR y a b Cockle.new Cockle_one
                    = Ok (Cockle.Add (Cockle.Mul a y) b))
  /\ (forall y a b, Supra.MöbiusL y a b Supra.new Supra_one
                    = Ok (Supra.Add (Supra.Mul y a) b))
  /\ (forall y a b, Supra.MöbiusR y a b Supra.new Supra_one
                    = Ok (Supra.Add (Supra.Mul a y) b)).
Proof.
  repeat match goal with |- _ /\ _ => split end.
  - intros. exact (seq1_fails_exactly _ _ _ _ (Complex_Inv_fails_exactly _)).
  - intros. exact (seq1_fails_exactly _ _ _ _ (Perplex_Inv_fails_exactly _)).
  - intros. exact (seq1_fails_exactly _ _ _ _ (Infra_Inv_fails_exactly _)).
  - intros.
    exact (seq1_fails_exactly _ _ _ _ (Hamilton_Inv_fails_exactly _)).
  - intros.
    exact (seq1_fails_exactly _ _ _ _ (Hamilton_Inv_fails_exactly _)).
  - intros. exact (seq1_fails_exactly _ _ _ _ (Cockle_Inv_fails_exactly _)).
  - intros. exact (seq1_fails_exactly _ _ _ _ (Cockle_Inv_fails_exactly _)).
  - intros. exact (seq1_fails_exactly _ _ _ _ (Supra_Inv_fails_exactly _)).
  - intros. exact (seq1_fails_exactly _ _ _ _ (Supra_Inv_fails_exactly _)).
  - intros y a b. unfold Complex.Möbius.
    replace (Complex.Add (Complex.Mul Complex.new y) Complex_one)
      with Complex_one by algebra.
    replace (Complex.Inv Complex_one) with (Ok Complex_one)
      by (symmetry; inverse_law inverse_of_one).
    simpl. f_equal. algebra.
  - intros y a b. unfold Perplex.Möbius.
    replace (Perplex.Add (Perplex.Mul Perplex.new y) Perplex_one)
      with Perplex_one by algebra.
    replace (Perplex.Inv Perplex_one) with (Ok Perplex_one)
      by (symmetry; inverse_law inverse_of_one).
    simpl. f_equal. algebra.
  - intros y a b. unfold Infra.Möbius.
    replace (Infra.Add (Infra.Mul Infra.new y) Infra_one)
      with Infra_one by algebra.
    replace (Infra.Inv Infra_one) with (Ok Infra_one)
      by (symmetry; inverse_law inverse_of_one).
    simpl. f_equal. algebra.
  - intros y a b. unfold Hamilton.MöbiusL.
    replace (Hamilton.Add (Hamilton.Mul y Hamilton.new) Hamilton_one)
      with Hamilton_one by algebra.
    replace (Hamilton.Inv Hamilton_one) with (Ok Hamilton_one)
      by (symmetry; inverse_law inverse_of_one).
    simpl. f_equal. algebra.
  - intros y a b. unfold Hamilton.MöbiusR.
    replace (Hamilton.Add (Hamilton.Mul Hamilton.new y) Hamilton_one)
      with Hamilton_one by algebra.
    replace (Hamilton.Inv Hamilton_one) with (Ok Hamilton_one)
      by (symmetry; inverse_law inverse_of_one).
    simpl. f_equal. algebra.
  - intros y a b. unfold Cockle.MöbiusL.
    replace (Cockle.Add (Cockle.Mul y Cockle.new) Cockle_one)
      with Cockle_one by algebra.
    replace (Cockle.Inv Cockle_one) with (Ok Cockle_one)
      by (symmetry; inverse_law inverse_of_one).
    simpl. f_equal. algebra.
  - intros y a b. unfold Cockle.MöbiusR.
    replace (Cockle.Add (Cockle.Mul Cockle.new y) Cockle_one)
      with Cockle_one by algebra.
    replace (Cockle.Inv Cockle_one) with (Ok Cockle_one)
      by (symmetry; inverse_law inverse_of_one).
    simpl. f_equal. algebra.
  - intros y a b. unfold Supra.MöbiusL.
    replace (Supra.Add (Supra.Mul y Supra.new) Supra_one)
      with Supra_one by algebra.
    replace (Supra.Inv Supra_one) with (Ok Supra_one)
      by (symmetry; inverse_law inverse_of_one).
    simpl. f_equal. algebra.
  - intros y a b. unfold Supra.MöbiusR.
    replace (Supra.Add (Supra.Mul Supra.new y) Supra_one)
      with Supra_one by algebra.
    replace (Supra.Inv Supra_one) with (Ok Supra_one)
      by (symmetry; inverse_law inverse_of_one).
    simpl. f_equal. algebra.
Qed.





(** ** Components, equality, idempotents *)

(** X23.  [Real] is the first Cartesian component and [Cartesian] undoes
    the constructor.  Conjugation keeps the real part; the real part of a
    product of Hamilton, Cockle or Supra values does not depend on the
    order of the factors, although the product does; and the quadrance is
    the real part of a value times its conjugate. *)
Theorem Real_part_properties :
  (forall a b c d,
      Hamilton.Cartesian (Hamilton.NewHamilton a b c d) = (a, b, c, d)
      /\ Hamilton.Real (Hamilton.NewHamilton a b c d) = a)
  /\ (forall a b c d,
      Cockle.Cartesian (Cockle.NewCockle a b c d) = (a, b, c, d)
      /\ Cockle.Real (Cockle.NewCockle a b c d) = a)
  /\ (forall a b c d,
      Supra.Cartesian (Supra.NewSupra a b c d) = (a, b, c, d)
      /\ Supra.Real (Supra.NewSupra a b c d) = a)
  /\ (forall z, Complex.Real (Complex.Conj z) = Complex.Real z)
  /\ (forall z, Infra.Real (Infra.Conj z) = Infra.Real z)
  /\ (forall z, Hamilton.Real (Hamilton.Conj z) = Hamilton.Real z)
  /\ (forall z, Cockle.Real (Cockle.Conj z) = Cockle.Real z)
  /\ (forall z, Supra.Real (Supra.Conj z) = Supra.Real z)
  /\ (forall x y, Hamilton.Real (Hamilton.Mul x y)
                  = Hamilton.Real (Hamilton.Mul y x))
  /\ (forall x y, Cockle.Real (Cockle.Mul x y)
                  = Cockle.Real (Cockle.Mul y x))
  /\ (forall x y, Supra.Real (Supra.Mul x y) = Supra.Real (Supra.Mul y x))
  /\ (forall z, Complex.Quad z = Complex.Real (Complex.Mul z (Complex.Conj z)))
  /\ (forall z, Infra.Quad z = Infra.Real (Infra.Mul z (Infra.Conj z)))
  /\ (forall z, Hamilton.Quad z
                = Hamilton.Real (Hamilton.Mul z (Hamilton.Conj z)))
  /\ (forall z, Cockle.Quad z
                = Cockle.Real (Cockle.Mul z (Cockle.Conj z)))
  /\ (forall z, Supra.Quad z = Supra.Real (Supra.Mul z (Supra.Conj z))).
Proof.
  repeat match goal with |- _ /\ _ => split end;
    try (intros; split; reflexivity);
    intros;
    cbv [Hamilton.Real Cockle.Real Supra.Real Complex.Real Infra.Real];
    algebra; try ring.
Qed.

(** X24.  In each of the six algebras [Equals] is true exactly when the
    two values have the same components; so it is reflexive, symmetric
    and transitive. *)
Theorem Equals_decides_equality :
  (forall z y, Complex.Equals z y = true <-> z = y)
  /\ (forall z y, Perplex.Equals z y = true <-> z = y)
  /\ (forall z y, Infra.Equals z y = true <-> z = y)
  /\ (forall z y, Hamilton.Equals z y = true <-> z = y)
  /\ (forall z y, Cockle.Equals z y = true <-> z = y)
  /\ (forall z y, Supra.Equals z y = true <-> z = y)
  /\ (forall z y, Hamilton.Equals z y = Hamilton.Equals y z)
  /\ (forall z y, Cockle.Equals z y = Cockle.Equals y z)
  /\ (forall z y, Supra.Equals z y = Supra.Equals y z)
  /\ (forall z y, Complex.Equals z y = Complex.Equals y z)
  /\ (forall z y, Perplex.Equals z y = Perplex.Equals y z)
  /\ (forall z y, Infra.Equals z y = Infra.Equals y z).
Proof.
  split; [ exact Complex_Equals_iff | ].
  split; [ exact Perplex_Equals_iff | ].
  split; [ exact Infra_Equals_iff | ].
  split; [ exact Hamilton_Equals_iff | ].
  split; [ exact Cockle_Equals_iff | ].
  split; [ exact Supra_Equals_iff | ].
  repeat match goal with |- _ /\ _ => split end; intros z y.
  - destruct (Hamilton.Equals z y) eqn:E1, (Hamilton.Equals y z) eqn:E2;
      try reflexivity;
      [ apply Hamilton_Equals_iff in E1 | apply Hamilton_Equals_iff in E2 ];
      subst; rewrite (proj2 (Hamilton_Equals_iff _ _) eq_refl) in *;
      discriminate.
  - destruct (Cockle.Equals z y) eqn:E1, (Cockle.Equals y z) eqn:E2;
      try reflexivity;
      [ apply Cockle_Equals_iff in E1 | apply Cockle_Equals_iff in E2 ];
      subst; rewrite (proj2 (Cockle_Equals_iff _ _) eq_refl) in *;
      discriminate.
  - destruct (Supra.Equals z y) eqn:E1, (Supra.Equals y z) eqn:E2;
      try reflexivity;
      [ apply Supra_Equals_iff in E1 | apply Supra_Equals_iff in E2 ];
      subst; rewrite (proj2 (Supra_Equals_iff _ _) eq_refl) in *;
      discriminate.
  - destruct (Complex.Equals z y) eqn:E1, (Complex.Equals y z) eqn:E2;
      try reflexivity;
      [ apply Complex_Equals_iff in E1 | apply Complex_Equals_iff in E2 ];
      subst; rewrite (proj2 (Complex_Equals_iff _ _) eq_refl) in *;
      discriminate.
  - destruct (Perplex.Equals z y) eqn:E1, (Perplex.Equals y z) eqn:E2;
      try reflexivity;
      [ apply Perplex_Equals_iff in E1 | apply Perplex_Equals_iff in E2 ];
      subst; rewrite (proj2 (Perplex_Equals_iff _ _) eq_refl) in *;
      discriminate.
  - destruct (Infra.Equals z y) eqn:E1, (Infra.Equals y z) eqn:E2;
      try reflexivity;
      [ apply Infra_Equals_iff in E1 | apply Infra_Equals_iff in E2 ];
      subst; rewrite (proj2 (Infra_Equals_iff _ _) eq_refl) in *;
      discriminate.
Qed.

(** X25.  The two values [Idempotent] can return are complementary: for
    s1 < 0 <= s2 their product is zero and their sum is 1. *)
Theorem Perplex_Idempotents_complementary (s1 s2 : Z) :
  (s1 < 0)%Z -> (0 <= s2)%Z ->
  Perplex.Mul (Perplex.Idempotent s1) (Perplex.Idempotent s2) = Perplex.new
  /\ Perplex.Mul (Perplex.Idempotent s2) (Perplex.Idempotent s1)
     = Perplex.new
  /\ Perplex.Add (Perplex.Idempotent s1) (Perplex.Idempotent s2)
     = Perplex_one.
Proof.
  intros H1 H2. unfold Perplex.Idempotent.
  apply Z.ltb_lt in H1. rewrite H1.
  assert (H3 : (s2 <? 0)%Z = false) by (apply Z.ltb_ge; exact H2).
  rewrite H3.
  repeat split; apply Perplex_Equals_iff; vm_compute; reflexivity.
Qed.

Lemma Perplex_Idempotents_complementary_witness :
  (-1 < 0)%Z /\ (0 <= 1)%Z
  /\ Perplex.Mul (Perplex.Idempotent (-1)) (Perplex.Idempotent 1)
     = Perplex.new.
Proof.
  split; [ lia | split; [ lia | ] ].
  apply (Perplex_Idempotents_complementary (-1) 1); lia.
Defined.

(** ** More of complex.go on pointers *)

Lemma load_agree_same n s' s z v :
  agree n s' (upd2 s z v) -> (z + 1 < n)%nat -> ComplexPtr.load s' z = v.
Proof.
  intros A H. destruct v as [a b].
  unfold ComplexPtr.load, ComplexPtr.l, ComplexPtr.r.
  rewrite (A z), (A (z + 1)%nat) by lia. unfold upd2. simpl.
  rewrite cell_upd_same, cell_upd_other, cell_upd_same by lia. reflexivity.
Qed.

Lemma load_agree_other n s' s z v q :
  agree n s' (upd2 s z v) -> (q + 1 < n)%nat ->
  ((q + 1 < z)%nat \/ (z + 1 < q)%nat) ->
  ComplexPtr.load s' q = ComplexPtr.load s q.
Proof.
  intros A H D.
  unfold ComplexPtr.load, ComplexPtr.l, ComplexPtr.r.
  rewrite (A q), (A (q + 1)%nat) by lia. unfold upd2.
  rewrite !cell_upd_other by lia. reflexivity.
Qed.

Ltac loads :=
  repeat match goal with
         | A : agree _ ?s' (upd2 ?s ?z ?v)
           |- context [ComplexPtr.load ?s' ?q] =>
             first [ rewrite (load_agree_same _ _ _ _ _ A) by side
                   | rewrite (load_agree_other _ _ _ _ _ q A) by side ]
         | |- context [ComplexPtr.load (grow ?s ?n) ?q] =>
             first [ rewrite (ComplexPtr_load_grow s n q) by side
                   | rewrite (ComplexPtr_load_fresh s n) by side ]
         end.

(** Either way [Inv] goes, the pointer method does what the value-level
    [Inv] says. *)
Lemma ComplexPtr_Inv_cases s z y :
  (z + 1 < next s)%nat -> (y + 1 < next s)%nat -> objs z y ->
  match Complex.Inv (ComplexPtr.load s y) with
  | Ok v => writes (ComplexPtr.Inv z y) s z v
  | Panic msg => ComplexPtr.Inv z y s = Panic msg
  | NoQuotient => False
  end.
Proof.
  intros Hz Hy O.
  destruct (Complex.Equals (ComplexPtr.load s y) Complex.new) eqn:E.
  - unfold Complex.Inv. rewrite E. apply ComplexPtr_Inv_panics; assumption.
  - rewrite (Complex_Inv_value _ E). apply ComplexPtr_Inv_writes; assumption.
Qed.

Lemma bind_Panic {A B : Type} (m : M A) (k : A -> M B) (s : store) msg :
  m s = Panic msg -> mbind m k s = Panic msg.
Proof. intro H. unfold mbind. rewrite H. reflexivity. Qed.

Ltac inv_step :=
  lazymatch goal with
  | |- context [mbind (ComplexPtr.Inv ?z ?y) _ ?s] =>
      let C := fresh "C" in
      assert (C := ComplexPtr_Inv_cases s z y ltac:(side) ltac:(side)
                                        ltac:(objs_side));
      revert C; loads; intro C;
      match type of C with
      | match ?o with _ => _ end =>
          let v := fresh "v" in
          let msg := fresh "msg" in
          destruct o as [v | msg | ] eqn:?;
          [ use_spec C
          | rewrite (bind_Panic _ _ _ _ C); cbn [bind]
          | contradiction ]
      end
  end.

Lemma ComplexPtr_CrossRatio_result s z v w x y :
  (z + 1 < next s)%nat -> (v + 1 < next s)%nat -> (w + 1 < next s)%nat ->
  (x + 1 < next s)%nat -> (y + 1 < next s)%nat ->
  ((z + 1 < v)%nat \/ (v + 1 < z)%nat) ->
  ((z + 1 < w)%nat \/ (w + 1 < z)%nat) ->
  ((z + 1 < x)%nat \/ (x + 1 < z)%nat) ->
  ((z + 1 < y)%nat \/ (y + 1 < z)%nat) ->
  result_at ComplexPtr.load (ComplexPtr.CrossRatio z v w x y) s
  = Complex.CrossRatio (ComplexPtr.load s v) (ComplexPtr.load s w)
                       (ComplexPtr.load s x) (ComplexPtr.load s y).
Proof.
  intros Hz Hv Hw Hx Hy Dv Dw Dx Dy.
  unfold result_at, ComplexPtr.CrossRatio, ComplexPtr.new, Complex.CrossRatio.
  cbv zeta.
  cstep. cstep. inv_step; [ | reflexivity ].
  cstep. cstep. cstep. inv_step; [ | reflexivity ].
  cstep. cstep. cstep. unfold ret. cbn [bind].
  loads. reflexivity.
Qed.

Lemma ComplexPtr_Moebius_result s z y a b c d :
  (z + 1 < next s)%nat -> (y + 1 < next s)%nat -> (a + 1 < next s)%nat ->
  (b + 1 < next s)%nat -> (c + 1 < next s)%nat -> (d + 1 < next s)%nat ->
  ((z + 1 < y)%nat \/ (y + 1 < z)%nat) ->
  ((z + 1 < a)%nat \/ (a + 1 < z)%nat) ->
  ((z + 1 < b)%nat \/ (b + 1 < z)%nat) ->
  ((z + 1 < c)%nat \/ (c + 1 < z)%nat) ->
  ((z + 1 < d)%nat \/ (d + 1 < z)%nat) ->
  result_at ComplexPtr.load (ComplexPtr.Möbius z y a b c d) s
  = Complex.Möbius (ComplexPtr.load s y) (ComplexPtr.load s a)
                   (ComplexPtr.load s b) (ComplexPtr.load s c)
                   (ComplexPtr.load s d).
Proof.
  intros Hz Hy Ha Hb Hc Hd Dy Da Db Dc Dd.
  unfold result_at, ComplexPtr.Möbius, ComplexPtr.new, Complex.Möbius.
  cbv zeta.
  cstep. cstep. cstep. cstep. cstep. inv_step; [ | reflexivity ].
  cstep. unfold ret. cbn [bind].
  loads. reflexivity.
Qed.

Lemma writes_result (m : M addr) (s : store) (z : addr) (v : Complex.t) :
  (z + 1 < next s)%nat -> writes m s z v ->
  result_at ComplexPtr.load m s = Ok v.
Proof.
  intros Hz W. destruct (writes_elim _ _ _ _ W) as (s' & R & N & A).
  unfold result_at. rewrite R. f_equal.
  exact (load_agree_same _ _ _ _ _ A Hz).
Qed.

(** ** What the pointer methods guarantee *)

(** X26.  [Add], [Sub], [Neg], [Conj] and [Copy] of complex.go may be
    called with a receiver that is one of the operands: the receiver gets
    the value computed from the operands as they were before the call, and
    no other cell allocated before the call changes. *)
Theorem ComplexPtr_receiver_may_alias (s : store) (z x y : addr) :
  (z + 1 < next s)%nat -> (x + 1 < next s)%nat -> (y + 1 < next s)%nat ->
  objs z x -> objs z y ->
  writes (ComplexPtr.Add z x y) s z
         (Complex.Add (ComplexPtr.load s x) (ComplexPtr.load s y))
  /\ writes (ComplexPtr.Sub z x y) s z
            (Complex.Sub (ComplexPtr.load s x) (ComplexPtr.load s y))
  /\ writes (ComplexPtr.Neg z y) s z (Complex.Neg (ComplexPtr.load s y))
  /\ writes (ComplexPtr.Conj z y) s z (Complex.Conj (ComplexPtr.load s y))
  /\ writes (ComplexPtr.Copy z y) s z (ComplexPtr.load s y).
Proof.
  intros Hz Hx Hy Ox Oy.
  split; [ apply ComplexPtr_Add_writes; assumption | ].
  split; [ apply ComplexPtr_Sub_writes; assumption | ].
  split; [ apply ComplexPtr_Neg_writes; assumption | ].
  split; [ apply ComplexPtr_Conj_writes; assumption
         | apply ComplexPtr_Copy_writes; assumption ].
Qed.

Lemma ComplexPtr_receiver_may_alias_witness :
  let s := store_of (map BigFloat.of_Z [6; 0; 2; 0]%Z) in
  (0 + 1 < next s)%nat
  /\ writes (ComplexPtr.Add 0 0 2) s 0
            (Complex.Add (ComplexPtr.load s 0) (ComplexPtr.load s 2)).
Proof.
  cbv zeta. split; [ simpl; lia | ].
  exact (proj1 (ComplexPtr_receiver_may_alias
                  (store_of (map BigFloat.of_Z [6; 0; 2; 0]%Z)) 0 0 2
                  ltac:(simpl; lia) ltac:(simpl; lia) ltac:(simpl; lia)
                  ltac:(unfold objs; lia) ltac:(unfold objs; lia))).
Defined.

(** X27.  [Mul] of complex.go and of hamilton.go copies its operands
    before it writes: whatever receiver it is called with, also one that
    is an operand, the receiver gets the product of the operands as they
    were before the call, and no other cell allocated before the call
    changes. *)
Theorem Mul_copies_its_operands (s : store) (z x y : addr) :
  ((z + 1 < next s)%nat -> (x + 1 < next s)%nat -> (y + 1 < next s)%nat ->
   writes (ComplexPtr.Mul z x y) s z
          (Complex.Mul (ComplexPtr.load s x) (ComplexPtr.load s y)))
  /\ ((z + 3 < next s)%nat -> (x + 3 < next s)%nat ->
      (y + 3 < next s)%nat ->
      writes4 (HamiltonPtr.Mul z x y) s z
              (Hamilton.Mul (HamiltonPtr.load s x) (HamiltonPtr.load s y))).
Proof.
  split.
  - apply ComplexPtr_Mul_writes.
  - apply HamiltonPtr_Mul_writes.
Qed.

Lemma Mul_copies_its_operands_witness :
  let s := store_of (map BigFloat.of_Z [0; 1; 2; 3]%Z) in
  (0 + 3 < next s)%nat
  /\ writes4 (HamiltonPtr.Mul 0 0 0) s 0
             (Hamilton.Mul (HamiltonPtr.load s 0) (HamiltonPtr.load s 0)).
Proof.
  cbv zeta. split; [ simpl; lia | ].
  exact (proj2 (Mul_copies_its_operands
                  (store_of (map BigFloat.of_Z [0; 1; 2; 3]%Z)) 0 0 0)
               ltac:(simpl; lia) ltac:(simpl; lia) ltac:(simpl; lia)).
Defined.

Lemma ComplexPtr_Inv_result (s : store) (z y : addr) :
  (z + 1 < next s)%nat -> (y + 1 < next s)%nat -> objs z y ->
  result_at ComplexPtr.load (ComplexPtr.Inv z y) s
  = Complex.Inv (ComplexPtr.load s y).
Proof.
  intros Hz Hy O.
  assert (C := ComplexPtr_Inv_cases s z y Hz Hy O).
  destruct (Complex.Inv (ComplexPtr.load s y)) as [v | msg | ].
  - apply (writes_result _ s z); assumption.
  - unfold result_at. rewrite C. reflexivity.
  - contradiction.
Qed.

Lemma ComplexPtr_Quo_result (s : store) (z x y : addr) :
  (z + 1 < next s)%nat -> (x + 1 < next s)%nat -> (y + 1 < next s)%nat ->
  objs z y -> ((z + 1 < x)%nat \/ (x + 1 < z)%nat) ->
  result_at ComplexPtr.load (ComplexPtr.Quo z x y) s
  = Complex.Quo (ComplexPtr.load s x) (ComplexPtr.load s y).
Proof.
  intros Hz Hx Hy O D.
  destruct (Complex.Equals (ComplexPtr.load s y) Complex.new) eqn:E.
  - unfold Complex.Quo. rewrite E. unfold result_at.
    rewrite (ComplexPtr_Quo_panics s z x y Hy E). reflexivity.
  - rewrite (Complex_Quo_value _ _ E).
    apply (writes_result _ s z); [ assumption | ].
    apply ComplexPtr_Quo_writes; assumption.
Qed.

(** X28.  On pointers [Inv] and [Quo] of complex.go do what the
    value-level [Inv] and [Quo] say, panics included: [Inv] with any
    receiver, also the operand itself; [Quo] with any receiver other than
    the operand x, also the operand y. *)
Theorem ComplexPtr_Inv_Quo_refine (s : store) (z x y : addr) :
  (z + 1 < next s)%nat -> (x + 1 < next s)%nat -> (y + 1 < next s)%nat ->
  objs z y ->
  result_at ComplexPtr.load (ComplexPtr.Inv z y) s
  = Complex.Inv (ComplexPtr.load s y)
  /\ (((z + 1 < x)%nat \/ (x + 1 < z)%nat) ->
      result_at ComplexPtr.load (ComplexPtr.Quo z x y) s
      = Complex.Quo (ComplexPtr.load s x) (ComplexPtr.load s y)).
Proof.
  intros Hz Hx Hy O. split.
  - apply ComplexPtr_Inv_result; assumption.
  - intro D. apply ComplexPtr_Quo_result; assumption.
Qed.

Lemma ComplexPtr_Inv_Quo_refine_witness :
  let s := store_of (map BigFloat.of_Z [6; 0; 2; 0]%Z) in
  (2 + 1 < next s)%nat /\ objs 2 2
  /\ result_at ComplexPtr.load (ComplexPtr.Quo 2 0 2) s
     = Complex.Quo (ComplexPtr.load s 0) (ComplexPtr.load s 2).
Proof.
  cbv zeta. split; [ simpl; lia | ]. split; [ unfold objs; lia | ].
  exact (proj2 (ComplexPtr_Inv_Quo_refine
                  (store_of (map BigFloat.of_Z [6; 0; 2; 0]%Z)) 2 0 2
                  ltac:(simpl; lia) ltac:(simpl; lia) ltac:(simpl; lia)
                  ltac:(unfold objs; lia))
               ltac:(lia)).
Defined.

(** X29.  With a receiver that is none of the operands, [CrossRatio] and
    [Möbius] of complex.go leave the value the value-level functions give,
    or panic as they do; the operands may alias one another. *)
Theorem ComplexPtr_CrossRatio_Moebius_refine (s : store)
        (z v w x y : addr) :
  (z + 1 < next s)%nat -> (v + 1 < next s)%nat -> (w + 1 < next s)%nat ->
  (x + 1 < next s)%nat -> (y + 1 < next s)%nat ->
  ((z + 1 < v)%nat \/ (v + 1 < z)%nat) ->
  ((z + 1 < w)%nat \/ (w + 1 < z)%nat) ->
  ((z + 1 < x)%nat \/ (x + 1 < z)%nat) ->
  ((z + 1 < y)%nat \/ (y + 1 < z)%nat) ->
  result_at ComplexPtr.load (ComplexPtr.CrossRatio z v w x y) s
  = Complex.CrossRatio (ComplexPtr.load s v) (ComplexPtr.load s w)
                       (ComplexPtr.load s x) (ComplexPtr.load s y)
  /\ (forall a, (a + 1 < next s)%nat ->
        ((z + 1 < a)%nat \/ (a + 1 < z)%nat) ->
        result_at ComplexPtr.load (ComplexPtr.Möbius z a v w x y) s
        = Complex.Möbius (ComplexPtr.load s a) (ComplexPtr.load s v)
                         (ComplexPtr.load s w) (ComplexPtr.load s x)
                         (ComplexPtr.load s y)).
Proof.
  intros Hz Hv Hw Hx Hy Dv Dw Dx Dy. split.
  - apply ComplexPtr_CrossRatio_result; assumption.
  - intros a Ha Da. apply ComplexPtr_Moebius_result; assumption.
Qed.

Lemma ComplexPtr_CrossRatio_Moebius_refine_witness :
  let s := store_of (map BigFloat.of_Z [1; 0; 2; 0; 3; 0; 5; 0; 0; 0]%Z) in
  (8 + 1 < next s)%nat
  /\ result_at ComplexPtr.load (ComplexPtr.CrossRatio 8 0 2 4 6) s
     = Complex.CrossRatio (ComplexPtr.load s 0) (ComplexPtr.load s 2)
                          (ComplexPtr.load s 4) (ComplexPtr.load s 6).
Proof.
  cbv zeta. split; [ simpl; lia | ].
  exact (proj1 (ComplexPtr_CrossRatio_Moebius_refine
                  (store_of (map BigFloat.of_Z
                               [1; 0; 2; 0; 3; 0; 5; 0; 0; 0]%Z))
                  8 0 2 4 6
                  ltac:(simpl; lia) ltac:(simpl; lia) ltac:(simpl; lia)
                  ltac:(simpl; lia) ltac:(simpl; lia) ltac:(simpl; lia)
                  ltac:(simpl; lia) ltac:(simpl; lia) ltac:(simpl; lia))).
Defined.

(** X30.  With a receiver that is neither operand, [Commutator] of
    hamilton.go leaves Mul(x,y) - Mul(y,x); [Sub] of hamilton.go may be
    called with a receiver that is an operand.  No other cell allocated
    before the call changes. *)
Theorem HamiltonPtr_Commutator_refine (s : store) (z x y : addr) :
  (z + 3 < next s)%nat -> (x + 3 < next s)%nat -> (y + 3 < next s)%nat ->
  (((z + 3 < x)%nat \/ (x + 3 < z)%nat) ->
   ((z + 3 < y)%nat \/ (y + 3 < z)%nat) ->
   writes4 (HamiltonPtr.Commutator z x y) s z
           (Hamilton.Commutator (HamiltonPtr.load s x)
                                (HamiltonPtr.load s y)))
  /\ (objs4 z x -> objs4 z y ->
      writes4 (HamiltonPtr.Sub z x y) s z
              (Hamilton.Sub (HamiltonPtr.load s x) (HamiltonPtr.load s y))).
Proof.
  intros Hz Hx Hy. split.
  - intros Dx Dy. apply HamiltonPtr_Commutator_writes; assumption.
  - intros Ox Oy. apply HamiltonPtr_Sub_writes; assumption.
Qed.

Lemma HamiltonPtr_Commutator_refine_witness :
  let s := store_of (map BigFloat.of_Z
                         [0; 1; 0; 0; 0; 0; 1; 0; 0; 0; 0; 0]%Z) in
  (8 + 3 < next s)%nat
  /\ writes4 (HamiltonPtr.Commutator 8 0 4) s 8
             (Hamilton.Commutator (HamiltonPtr.load s 0)
                                  (HamiltonPtr.load s 4)).
Proof.
  cbv zeta. split; [ simpl; lia | ].
  exact (proj1 (HamiltonPtr_Commutator_refine
                  (store_of (map BigFloat.of_Z
                               [0; 1; 0; 0; 0; 0; 1; 0; 0; 0; 0; 0]%Z))
                  8 0 4 ltac:(simpl; lia) ltac:(simpl; lia)
                  ltac:(simpl; lia))
               ltac:(lia) ltac:(lia)).
Defined.

(** ** The laws of the inverse at concrete values *)



Lemma Quo_self_and_one_witness :
  Complex.Inv (complexZ 3 4)
  = Ok (Complex.Scal (Complex.Conj (complexZ 3 4))
                     (/ Complex.Quad (complexZ 3 4)))
  /\ Complex.Quo (complexZ 3 4) (complexZ 3 4) = Ok Complex_one.
Proof.
  assert (H : Complex.Inv (complexZ 3 4)
              = Ok (Complex.Scal (Complex.Conj (complexZ 3 4))
                                 (/ Complex.Quad (complexZ 3 4)))).
  { apply Complex_Inv_value. vm_compute. reflexivity. }
  split; [ exact H | ].
  exact (proj1 Quo_self_and_one _ _ H).
Defined.

